(** * A linear congruential generator and its scatter plot (script.js)

    Shallow embedding of the two observed versions of [script.js]:
    the version deriving the modulus from the sample count and the
    version taking the modulus from the form.  JavaScript numbers are
    IEEE 754 binary64 values; they are embedded as exact rationals
    together with the rounding every arithmetic operator performs. *)

From Stdlib Require Import ZArith QArith Qabs Qreduction Qpower List Bool Lia Lqa String Ascii.
Import ListNotations.

Local Open Scope Z_scope.

(** ** JavaScript numbers *)

Module JS.

(** A Number is a finite binary64 value, held as the rational it denotes,
    one of the two infinities, or NaN.  The sign of zero is not modelled:
    no operation of the program observes it. *)
Inductive number : Type :=
  | Finite (q : Q)
  | PosInf
  | NegInf
  | NaN.

Definition of_Z (z : Z) : number := Finite (inject_Z z).

(** Round to nearest integer, ties to even, of the fraction [p / d], [0 < d]. *)
Definition rne (p d : Z) : Z :=
  let n := p / d in
  let r := p mod d in
  if 2 * r <? d then n
  else if d <? 2 * r then n + 1
  else if Z.even n then n else n + 1.

(** Binary exponent of a positive fraction: [2^e <= p/d < 2^(e+1)]. *)
Definition ilog2 (p d : Z) : Z :=
  let e0 := Z.log2 p - Z.log2 d in
  if p * 2 ^ Z.max 0 (- e0) <? d * 2 ^ Z.max 0 e0 then e0 - 1 else e0.

(** Exponent of the unit in the last place of a positive fraction:
    53 significant bits, gradual underflow below [2^-1022]. *)
Definition ulp_exp (p d : Z) : Z := Z.max (ilog2 p d - 52) (-1074).

(** The integer significand [p/d] rounds to, in units of [2^ue]. *)
Definition significand (p d ue : Z) : Z :=
  if ue <=? 0 then rne (p * 2 ^ (- ue)) d else rne p (d * 2 ^ ue).

(** The rational [n * 2^ue], in lowest terms. *)
Definition scaled (n ue : Z) : Q :=
  if 0 <=? ue then inject_Z (n * 2 ^ ue)
  else Qred (n # Z.to_pos (2 ^ (- ue))).

(** Rounding of a positive fraction; [neg] is the sign of the result. *)
Definition round_pos (neg : bool) (p d : Z) : number :=
  let ue := ulp_exp p d in
  let n := significand p d ue in
  if (971 <=? ue) && (2 ^ (1024 - ue) <=? n)
  then (if neg then NegInf else PosInf)
  else Finite (if neg then Qopp (scaled n ue) else scaled n ue).

(** Rounding of an exact result to the nearest binary64 value. *)
Definition round_double (q : Q) : number :=
  match Qnum q with
  | Z0 => Finite 0%Q
  | Zpos p => round_pos false (Zpos p) (Zpos (Qden q))
  | Zneg p => round_pos true (Zpos p) (Zpos (Qden q))
  end.

Definition is_zero (q : Q) : bool := Z.eqb (Qnum q) 0.
Definition is_neg (q : Q) : bool := Z.ltb (Qnum q) 0.

(** [a * b] *)
Definition mul (a b : number) : number :=
  match a, b with
  | NaN, _ | _, NaN => NaN
  | Finite x, Finite y => round_double (x * y)
  | Finite x, PosInf | PosInf, Finite x =>
      if is_zero x then NaN else if is_neg x then NegInf else PosInf
  | Finite x, NegInf | NegInf, Finite x =>
      if is_zero x then NaN else if is_neg x then PosInf else NegInf
  | PosInf, PosInf | NegInf, NegInf => PosInf
  | PosInf, NegInf | NegInf, PosInf => NegInf
  end.

(** [a + b] *)
Definition add (a b : number) : number :=
  match a, b with
  | NaN, _ | _, NaN => NaN
  | Finite x, Finite y => round_double (x + y)
  | PosInf, NegInf | NegInf, PosInf => NaN
  | PosInf, _ | _, PosInf => PosInf
  | NegInf, _ | _, NegInf => NegInf
  end.

Definition neg (a : number) : number :=
  match a with
  | Finite x => Finite (Qred (- x))
  | PosInf => NegInf
  | NegInf => PosInf
  | NaN => NaN
  end.

(** [a - b] *)
Definition sub (a b : number) : number := add a (neg b).

(** [a / b] *)
Definition div (a b : number) : number :=
  match a, b with
  | NaN, _ | _, NaN => NaN
  | Finite x, Finite y =>
      if is_zero y then
        if is_zero x then NaN else if is_neg x then NegInf else PosInf
      else round_double (x / y)
  | Finite _, _ => Finite 0%Q
  | PosInf, Finite y => if is_neg y then NegInf else PosInf
  | NegInf, Finite y => if is_neg y then PosInf else NegInf
  | _, _ => NaN
  end.

(** [a % b]: the remainder has the sign of the dividend and is exact. *)
Definition rem (a b : number) : number :=
  match a, b with
  | Finite x, Finite y =>
      if is_zero y then NaN
      else
        let t := Z.quot (Qnum x * Zpos (Qden y)) (Zpos (Qden x) * Qnum y) in
        Finite (Qred (x - inject_Z t * y))
  | Finite x, (PosInf | NegInf) => Finite x
  | _, _ => NaN
  end.

(** [a < b]; false as soon as an operand is NaN. *)
Definition lt (a b : number) : bool :=
  match a, b with
  | NaN, _ | _, NaN => false
  | Finite x, Finite y => match Qcompare x y with Lt => true | _ => false end
  | NegInf, NegInf => false
  | NegInf, _ => true
  | _, PosInf => match a with PosInf => false | _ => true end
  | _, _ => false
  end.

(** [a <= b], [a > b], [a >= b] *)
Definition le (a b : number) : bool :=
  match a, b with
  | NaN, _ | _, NaN => false
  | Finite x, Finite y => match Qcompare x y with Gt => false | _ => true end
  | NegInf, _ => true
  | _, PosInf => true
  | _, _ => false
  end.
Definition gt (a b : number) : bool := lt b a.
Definition ge (a b : number) : bool := le b a.

(** [Number.isFinite], [Number.isInteger] *)
Definition isFinite (a : number) : bool :=
  match a with Finite _ => true | _ => false end.

Definition isInteger (a : number) : bool :=
  match a with
  | Finite x => Z.eqb (Qnum x mod Zpos (Qden x)) 0
  | _ => false
  end.

(** [Math.max(a, b)] *)
Definition max (a b : number) : number :=
  match a, b with
  | NaN, _ | _, NaN => NaN
  | _, _ => if lt a b then b else a
  end.

(** [2 ** k] for an integer exponent [k]. *)
Definition pow2 (k : Z) : number :=
  if k <? 0 then round_double (1 # Z.to_pos (2 ^ (- k)))
  else round_double (inject_Z (2 ^ k)).

End JS.

Import JS.

(** ** The generator (class LCGGenerator) *)

Record LCGGenerator : Type := mkLCG {
  multiplier : number;
  increment : number;
  modulus : number;
  seed : number
}.

(** One turn of the loop body of [generate]:
    [current = (this.multiplier * current + this.increment) % this.modulus]. *)
Definition next (g : LCGGenerator) (current : number) : number :=
  rem (add (mul (multiplier g) current) (increment g)) (modulus g).

(** [for (let i = 0; i < count; i += 1) { current = ...; values.push(current) }].
    The counter [i] and the integer-valued [count] are exact integers; [fuel]
    bounds the number of turns. *)
Fixpoint generate_loop (fuel : nat) (g : LCGGenerator) (i count : Z)
    (current : number) (values : list number) : list number :=
  match fuel with
  | O => values
  | S fuel' =>
      if i <? count then
        let current' := next g current in
        generate_loop fuel' g (i + 1) count current' (values ++ [current'])
      else values
  end.

(** [generate(count)]: [Z.to_nat count] turns exhaust the loop, see
    [generate_loop_exits].  An array holds fewer than [2^32] values and
    [push] throws beyond: this is what the call returns for an integer
    count below [2^32], see [exceeds_array]. *)
Definition generate (g : LCGGenerator) (count : Z) : list number :=
  generate_loop (Z.to_nat count) g 0 count (seed g) [].

(** Whether [generate(count)] fills its array: an array holds at most
    [2^32 - 1] values, and the [push] of one more throws a RangeError, so the
    call throws exactly when [count >= 2^32]; otherwise it returns
    [generate g count]. *)
Definition exceeds_array (count : Z) : bool := 2 ^ 32 <=? count.

Record Sample : Type := mkSample {
  raw : number;
  normalized : number
}.

(** [generateNormalized(count)] *)
Definition generateNormalized (g : LCGGenerator) (count : Z) : list Sample :=
  map (fun value => mkSample value (div value (modulus g))) (generate g count).

(** The recurrence of a linear congruential generator over the integers:
    [x 0 = s], [x (i+1) = (a * x i + c) mod m]. *)
Fixpoint lcg (a c m s : Z) (i : nat) : Z :=
  match i with
  | O => s
  | S j => (a * lcg a c m s j + c) mod m
  end.

(** Parameters the validator lets through, as integers. *)
Definition valid_params (a c m s : Z) : Prop :=
  0 <= a /\ 0 <= c /\ 1 < m /\ 0 <= s < m.

Definition lcg_of (a c m s : Z) : LCGGenerator :=
  mkLCG (of_Z a) (of_Z c) (of_Z m) (of_Z s).

(** ** nextPow2 *)

(** Whether [Math.log2] rounds its result down to the integer [e], for a
    Number [p / d] strictly between [2^e] and [2^(e+1)].  [Math.log2] is
    taken correctly rounded (to the nearest binary64 value): it returns [e]
    exactly when [log2 (p/d) - e] is below half a unit in the last place of
    [e], which is [h = 2^(b - 53)] with [b] the binary exponent of [e].  For a
    Number, [delta = (p/d) / 2^e - 1] is a multiple of [2^-52], so of
    [h / 256]; as [177/256 < ln 2 < 178/256] and [log2 (1 + delta)] is
    [delta / ln 2] up to a factor within [2^-44] of 1, this is the test
    [256 * delta <= 177 * h].  Below [2], no logarithm rounds to [0]. *)
Definition log2_rounds_down (p d e : Z) : bool :=
  (1 <=? e) && (256 * (p - d * 2 ^ e) * 2 ^ (53 - Z.log2 e) <=? 177 * d * 2 ^ e).

(** [Math.ceil(Math.log2(n))] for a finite [n >= 1], given as the fraction
    [p / d]: the binary exponent [e] of [n] when [n] is [2^e] or when the
    logarithm rounds down to [e], and [e + 1] otherwise. *)
Definition Math_ceil_log2 (p d : Z) : Z :=
  let e := ilog2 p d in
  if p =? d * 2 ^ e then e
  else if log2_rounds_down p d e then e
  else e + 1.

(** [function nextPow2(n)] *)
Definition nextPow2 (n : number) : number :=
  if negb (isFinite n) || lt n (of_Z 1) then of_Z 2
  else
    match n with
    | Finite q => max (of_Z 2) (pow2 (Math_ceil_log2 (Qnum q) (Zpos (Qden q))))
    | _ => of_Z 2
    end.

(** ** The scatter plot (class ScatterPlot) *)

(** The canvas: its [width] and [height] attributes are unsigned integers. *)
Record Canvas : Type := mkCanvas {
  width : Z;
  height : Z
}.

Record Padding : Type := mkPadding {
  left : Z;
  right : Z;
  top : Z;
  bottom : Z
}.

(** [const padding = { left: 40, right: 20, top: 20, bottom: 30 }] *)
Definition padding : Padding := mkPadding 40 20 20 30.

(** Centre of a disc drawn by [ctx.arc(x, y, 4, 0, 2 * Math.PI)]. *)
Record Point : Type := mkPoint {
  px : number;
  py : number
}.

(** The coordinates computed in the body of [data.forEach], for margins [pd],
    a sample sequence of length [len] and the sample at position [index]. *)
Definition point_x (pd : Padding) (c : Canvas) (len index : Z) : number :=
  let w := sub (sub (of_Z (width c)) (of_Z (left pd))) (of_Z (right pd)) in
  add (of_Z (left pd))
      (mul (div (of_Z index) (max (sub (of_Z len) (of_Z 1)) (of_Z 1))) w).

Definition point_y (pd : Padding) (c : Canvas) (nrm : number) : number :=
  let h := sub (sub (of_Z (height c)) (of_Z (top pd))) (of_Z (bottom pd)) in
  add (of_Z (top pd)) (mul (sub (of_Z 1) nrm) h).

(** [data.forEach(({ normalized }, index) => ...)], from position [index] on. *)
Fixpoint plot_from (pd : Padding) (c : Canvas) (len index : Z)
    (data : list Sample) : list Point :=
  match data with
  | [] => []
  | s :: rest =>
      mkPoint (point_x pd c len index) (point_y pd c (normalized s))
      :: plot_from pd c len (index + 1) rest
  end.

(** The mapping of [plot] for arbitrary margins. *)
Definition plot_with (pd : Padding) (c : Canvas) (data : list Sample) : list Point :=
  match data with
  | [] => []
  | _ => plot_from pd c (Z.of_nat (List.length data)) 0 data
  end.

(** [plot(data)]: the discs on the canvas once the call returns; [clear]
    leaves the axes alone, that is no disc. *)
Definition clear : list Point := [].

(** [drawAxes()]: the two strokes, each from the point of its [moveTo] to
    the point of its [lineTo]: the horizontal axis, at the bottom margin,
    and the vertical axis, at the left margin. *)
Definition drawAxes (c : Canvas) : list (Point * Point) :=
  let origin := mkPoint (of_Z 40) (sub (of_Z (height c)) (of_Z 30)) in
  [ (origin, mkPoint (sub (of_Z (width c)) (of_Z 20)) (sub (of_Z (height c)) (of_Z 30)));
    (origin, mkPoint (of_Z 40) (of_Z 20)) ].

Definition plot (c : Canvas) (data : list Sample) : list Point :=
  plot_with padding c data.

(** ** Number(text) *)

(** The conversion [Number(text)] of a string to a number (StringToNumber):
    surrounding white space is dropped, the empty text is [0], then come
    signed decimal literals with an optional fraction and exponent,
    [Infinity], and unsigned hexadecimal, octal and binary integers;
    anything else is [NaN].  A character of a text is a code unit below 256;
    text with other code units is not represented. *)
Module Parse.

(** The white space and line terminators below 256, which [Number] and
    [trim] both strip: TAB, LF, VT, FF, CR, SP and NBSP (U+00A0). *)
Definition is_space (c : ascii) : bool :=
  let n := Z.of_nat (nat_of_ascii c) in
  ((9 <=? n) && (n <=? 13)) || (n =? 32) || (n =? 160).

Fixpoint drop_space (cs : list ascii) : list ascii :=
  match cs with
  | c :: rest => if is_space c then drop_space rest else cs
  | [] => []
  end.

Definition trim (cs : list ascii) : list ascii :=
  rev (drop_space (rev (drop_space cs))).

Definition digit_val (base : Z) (c : ascii) : option Z :=
  let n := Z.of_nat (nat_of_ascii c) in
  let v := if (48 <=? n) && (n <=? 57) then n - 48
           else if (97 <=? n) && (n <=? 102) then n - 87
           else if (65 <=? n) && (n <=? 70) then n - 55
           else base in
  if v <? base then Some v else None.

(** The longest prefix of digits: its value, its length and what follows. *)
Fixpoint take_digits (base : Z) (cs : list ascii) (acc len : Z) : Z * Z * list ascii :=
  match cs with
  | c :: rest =>
      match digit_val base c with
      | Some v => take_digits base rest (acc * base + v) (len + 1)
      | None => (acc, len, cs)
      end
  | [] => (acc, len, [])
  end.

(** The exponent part, which must reach the end of the text. *)
Definition exponent (cs : list ascii) : option Z :=
  match cs with
  | [] => Some 0
  | c :: rest =>
      if Ascii.eqb c "e"%char || Ascii.eqb c "E"%char then
        let '(sg, ds) :=
          match rest with
          | "+"%char :: r => (1, r)
          | "-"%char :: r => (-1, r)
          | _ => (1, rest)
          end in
        match take_digits 10 ds 0 0 with
        | (v, len, []) => if 0 <? len then Some (sg * v) else None
        | _ => None
        end
      else None
  end.

Definition pow10 (q : Q) (e : Z) : Q :=
  if 0 <=? e then (q * inject_Z (10 ^ e))%Q
  else (q / inject_Z (10 ^ (- e)))%Q.

(** An unsigned decimal literal, as the exact rational it writes. *)
Definition unsigned_decimal (cs : list ascii) : option Q :=
  let '(ip, ni, r1) := take_digits 10 cs 0 0 in
  match r1 with
  | "."%char :: r2 =>
      let '(fp, nf, r3) := take_digits 10 r2 0 0 in
      if (ni =? 0) && (nf =? 0) then None
      else
        match exponent r3 with
        | Some e => Some (pow10 (inject_Z (ip * 10 ^ nf + fp)) (e - nf))
        | None => None
        end
  | _ =>
      if ni =? 0 then None
      else
        match exponent r1 with
        | Some e => Some (pow10 (inject_Z ip) e)
        | None => None
        end
  end.

Definition infinity : list ascii := list_ascii_of_string "Infinity".

Definition is_infinity (cs : list ascii) : bool :=
  if list_eq_dec ascii_dec cs infinity then true else false.

Definition decimal (sign : bool) (cs : list ascii) : number :=
  if is_infinity cs then (if sign then NegInf else PosInf)
  else
    match unsigned_decimal cs with
    | Some q => round_double (if sign then - q else q)%Q
    | None => NaN
    end.

Definition radix (base : Z) (cs : list ascii) : number :=
  match take_digits base cs 0 0 with
  | (v, len, []) => if 0 <? len then round_double (inject_Z v) else NaN
  | _ => NaN
  end.

Definition literal (cs : list ascii) : number :=
  match cs with
  | [] => of_Z 0
  | "+"%char :: r => decimal false r
  | "-"%char :: r => decimal true r
  | "0"%char :: c :: r =>
      if Ascii.eqb c "x"%char || Ascii.eqb c "X"%char then radix 16 r
      else if Ascii.eqb c "o"%char || Ascii.eqb c "O"%char then radix 8 r
      else if Ascii.eqb c "b"%char || Ascii.eqb c "B"%char then radix 2 r
      else decimal false cs
  | _ => decimal false cs
  end.

End Parse.

(** [Number(text)] *)
Definition Number (text : string) : number :=
  Parse.literal (Parse.trim (list_ascii_of_string text)).

(** ** The application (class App) *)

(** The messages of the errors thrown by [validateInputs]:
    - [NotIntegers]: 'Todos los parametros deben ser enteros (sin decimales).'
      in the deriving version, 'Todos los parametros deben ser numeros
      enteros.' in the other;
    - [InvalidValues]: 'Valores invalidos: no se permiten negativos y la
      cantidad debe ser >= 1.';
    - [SeedOutOfRange m]: 'La semilla debe cumplir 0 <= semilla < modulo',
      followed in the deriving version by '(m = ...)' with the modulus [m];
    - [ModulusTooSmall]: 'El modulo debe ser un entero mayor que 1.';
    - [CountTooSmall]: 'La cantidad de numeros debe ser mayor que 0.';
    - [Cancelled]: 'Generacion cancelada por el usuario.'
    and of the error thrown during generation:
    - [InvalidArrayLength]: the message of the RangeError of [values.push]
      when the array is full; its text is the engine's. *)
Inductive message : Type :=
  | NotIntegers
  | InvalidValues
  | SeedOutOfRange (m : option number)
  | ModulusTooSmall
  | CountTooSmall
  | Cancelled
  | InvalidArrayLength.

(** The kinds of failure the specification tells apart. *)
Inductive ErrorKind : Type :=
  | ParseError
  | RangeError
  | SeedRangeError
  | UserCancellation.

Definition kind (e : message) : ErrorKind :=
  match e with
  | NotIntegers => ParseError
  | InvalidValues | ModulusTooSmall | CountTooSmall => RangeError
  | InvalidArrayLength => RangeError
  | SeedOutOfRange _ => SeedRangeError
  | Cancelled => UserCancellation
  end.

(** Outcome of a call that may throw. *)
Inductive result (A : Type) : Type :=
  | Ok (a : A)
  | Throw (e : message).
Arguments Ok {A} a.
Arguments Throw {A} e.

(** The object returned by [validateInputs]; [p_modulus] is the derived or
    the supplied modulus. *)
Record Parsed : Type := mkParsed {
  p_seed : number;
  p_multiplier : number;
  p_increment : number;
  p_modulus : number;
  p_count : number
}.

(** The text fields of the form. *)
Record Form : Type := mkForm {
  f_seed : string;
  f_multiplier : string;
  f_increment : string;
  f_modulus : string;
  f_count : string
}.

(** What the page shows: the error region, the result list (one entry per
    sample, in order; the text of an entry is a function of the sample and
    its position) and the discs on the canvas. *)
Record Display : Type := mkDisplay {
  errorMessage : option message;
  resultsContainer : list Sample;
  discs : list Point
}.

(** [text.trim()] *)
Definition trim (text : string) : string :=
  string_of_list_ascii (Parse.trim (list_ascii_of_string text)).

(** The integer an integer-valued number stands for. *)
Definition to_Z (n : number) : Z :=
  match n with
  | Finite q => Qnum q / Zpos (Qden q)
  | _ => 0
  end.

Definition generator_of (p : Parsed) : LCGGenerator :=
  mkLCG (p_multiplier p) (p_increment p) (p_modulus p) (p_seed p).

(** The version of [script.js] that derives the modulus from the count. *)
Module Derived.

(** [getInputValues()]: the modulus field is not read. *)
Definition getInputValues (f : Form) : Form :=
  mkForm (trim (f_seed f)) (trim (f_multiplier f)) (trim (f_increment f))
         EmptyString (trim (f_count f)).

Definition invalid (v : number) : bool := negb (isFinite v) || negb (isInteger v).

(** [validateInputs({ seed, multiplier, increment, count })] *)
Definition validateInputs (f : Form) : result Parsed :=
  let seed := Number (f_seed f) in
  let multiplier := Number (f_multiplier f) in
  let increment := Number (f_increment f) in
  let count := Number (f_count f) in
  if existsb invalid [seed; multiplier; increment; count] then Throw NotIntegers
  else if lt seed (of_Z 0) || lt multiplier (of_Z 0) || lt increment (of_Z 0)
          || lt count (of_Z 1)
  then Throw InvalidValues
  else
    let modulus := nextPow2 count in
    if lt seed (of_Z 0) || ge seed modulus
    then Throw (SeedOutOfRange (Some modulus))
    else Ok (mkParsed seed multiplier increment modulus count).

(** [handleSubmit(event)]; the modulus echoed into the read-only field is
    the [p_modulus] of a successful validation.  The [catch] block also
    receives the error of a generation that fills its array. *)
Definition handleSubmit (c : Canvas) (f : Form) (d : Display) : Display :=
  let d1 := mkDisplay None (resultsContainer d) (discs d) in
  match validateInputs (getInputValues f) with
  | Ok p =>
      if exceeds_array (to_Z (p_count p))
      then mkDisplay (Some InvalidArrayLength) [] clear
      else
        let data := generateNormalized (generator_of p) (to_Z (p_count p)) in
        mkDisplay (errorMessage d1) data (plot c data)
  | Throw Cancelled => d1
  | Throw e => mkDisplay (Some e) [] clear
  end.

(** The page of this version: the editable fields ([f_modulus] is not used
    here), the read-only modulus field and what is shown.  [modulusField]
    holds [Some m] for the text [String(m)] and [None] for the empty text. *)
Record Page : Type := mkPage {
  fields : Form;
  modulusField : option number;
  shown : Display
}.

(** The listener of the count field:
    [this.form.count.addEventListener('input', ...)]. *)
Definition onCountInput (text : string) : option number :=
  let countVal := Number text in
  if isInteger countVal && ge countVal (of_Z 1)
  then Some (nextPow2 countVal)
  else None.

(** [constructor()], for the fields [f] and the display [d] the document
    starts with: the modulus field is set from the count, without a test,
    and the canvas is cleared. *)
Definition construct (f : Form) (d : Display) : Page :=
  mkPage f (Some (nextPow2 (Number (f_count f))))
         (mkDisplay (errorMessage d) (resultsContainer d) clear).

(** The modulus field after [handleSubmit]: [validateInputs] writes the
    derived modulus when it succeeds and nothing when it throws. *)
Definition modulusAfterSubmit (f : Form) (m : option number) : option number :=
  match validateInputs (getInputValues f) with
  | Ok p => Some (p_modulus p)
  | Throw _ => m
  end.

(** [handleReset()] *)
Definition handleReset : Page :=
  mkPage (mkForm "1" "5" "3" EmptyString "100")
         (Some (nextPow2 (Number "100")))
         (mkDisplay None [] clear).

(** What can happen to the page: the user edits a field (editing the count
    fires its listener), submits the form or resets it. *)
Inductive Event : Type :=
  | EditSeed (text : string)
  | EditMultiplier (text : string)
  | EditIncrement (text : string)
  | EditCount (text : string)
  | Submit
  | Reset.

Definition step (c : Canvas) (pg : Page) (e : Event) : Page :=
  let f := fields pg in
  match e with
  | EditSeed t =>
      mkPage (mkForm t (f_multiplier f) (f_increment f) (f_modulus f) (f_count f))
             (modulusField pg) (shown pg)
  | EditMultiplier t =>
      mkPage (mkForm (f_seed f) t (f_increment f) (f_modulus f) (f_count f))
             (modulusField pg) (shown pg)
  | EditIncrement t =>
      mkPage (mkForm (f_seed f) (f_multiplier f) t (f_modulus f) (f_count f))
             (modulusField pg) (shown pg)
  | EditCount t =>
      mkPage (mkForm (f_seed f) (f_multiplier f) (f_increment f) (f_modulus f) t)
             (onCountInput t) (shown pg)
  | Submit =>
      mkPage f (modulusAfterSubmit f (modulusField pg)) (handleSubmit c f (shown pg))
  | Reset => handleReset
  end.

End Derived.

(** The version that reads the modulus from the form. *)
Module Supplied.

Definition getInputValues (f : Form) : Form :=
  mkForm (trim (f_seed f)) (trim (f_multiplier f)) (trim (f_increment f))
         (trim (f_modulus f)) (trim (f_count f)).

(** [validateInputs({ seed, multiplier, increment, modulus, count })].
    [confirm] is the answer [window.confirm] gives if it is called; the first
    component of the outcome tells whether it was called. *)
Definition validateInputs (confirm : bool) (f : Form) : bool * result Parsed :=
  let seed := Number (f_seed f) in
  let multiplier := Number (f_multiplier f) in
  let increment := Number (f_increment f) in
  let modulus := Number (f_modulus f) in
  let count := Number (f_count f) in
  if existsb (fun v => negb (isInteger v))
       [seed; multiplier; increment; modulus; count]
  then (false, Throw NotIntegers)
  else if le modulus (of_Z 1) then (false, Throw ModulusTooSmall)
  else if lt seed (of_Z 0) || ge seed modulus
  then (false, Throw (SeedOutOfRange None))
  else if le count (of_Z 0) then (false, Throw CountTooSmall)
  else if gt count (of_Z 100) then
    if negb confirm then (true, Throw Cancelled)
    else (true, Ok (mkParsed seed multiplier increment modulus count))
  else (false, Ok (mkParsed seed multiplier increment modulus count)).

(** [handleSubmit(event)]: the error region is emptied, then the run is
    attempted; a cancelled run returns at once, and the [catch] block also
    receives the error of a generation that fills its array. *)
Definition handleSubmit (confirm : bool) (c : Canvas) (f : Form) (d : Display)
    : Display :=
  let d1 := mkDisplay None (resultsContainer d) (discs d) in
  match snd (validateInputs confirm (getInputValues f)) with
  | Ok p =>
      if exceeds_array (to_Z (p_count p))
      then mkDisplay (Some InvalidArrayLength) [] clear
      else
        let data := generateNormalized (generator_of p) (to_Z (p_count p)) in
        mkDisplay (errorMessage d1) data (plot c data)
  | Throw Cancelled => d1
  | Throw e => mkDisplay (Some e) [] clear
  end.

(** Whether a submission computes a sample sequence. *)
Definition generates (confirm : bool) (f : Form) : bool :=
  match snd (validateInputs confirm (getInputValues f)) with
  | Ok _ => true
  | Throw _ => false
  end.

(** The page of this version: the five fields and what is shown. *)
Record Page : Type := mkPage {
  fields : Form;
  shown : Display
}.

(** [handleReset()] *)
Definition handleReset : Page :=
  mkPage (mkForm "1" "5" "3" "16" "10") (mkDisplay None [] clear).

(** What can happen to the page: the user edits the fields, submits the form
    (answering the dialog by [answer] if it is shown) or resets it. *)
Inductive Event : Type :=
  | Edit (f : Form)
  | Submit (answer : bool)
  | Reset.

Definition step (c : Canvas) (pg : Page) (e : Event) : Page :=
  match e with
  | Edit f => mkPage f (shown pg)
  | Submit answer => mkPage (fields pg) (handleSubmit answer c (fields pg) (shown pg))
  | Reset => handleReset
  end.

End Supplied.

(** ** Notions used in the statements *)

(** The values pushed by [k] turns of the loop of [generate] from [current]. *)
Fixpoint iterate (g : LCGGenerator) (k : nat) (current : number) : list number :=
  match k with
  | O => []
  | S k' => let current' := next g current in current' :: iterate g k' current'
  end.

(** Magnitudes for which no operation of [next] rounds: every product and
    sum stays within the 53 bits of a binary64 significand. *)
Definition exact_range (a c m : Z) : Prop :=
  a * (m - 1) + c <= 2 ^ 53 /\ m <= 2 ^ 53.

(** Magnitudes for which no operation of [next] overflows to an infinity
    and the quotient by the modulus is taken between integers below [2^53]. *)
Definition finite_range (a c m : Z) : Prop :=
  a * (m - 1) <= 2 ^ 1022 /\ c <= 2 ^ 1022 /\ m <= 2 ^ 53.

(** A rational with the sign [b] chooses. *)
Definition signed (b : bool) (q : Q) : Q := if b then Qopp q else q.

(** The canvas width and the horizontal margins are unsigned 32-bit
    integers. *)
Definition margins_in_range (pd : Padding) (c : Canvas) : Prop :=
  0 <= width c < 2 ^ 32 /\ 0 <= left pd < 2 ^ 32 /\ 0 <= right pd < 2 ^ 32.

(** Follows the specification's words, not the code: a text that is a
    base-10 integer with no fractional part, that is an optional sign and
    one or more decimal digits. *)
Definition base10_integer (text : string) : bool :=
  let digits cs :=
    match cs with
    | [] => false
    | _ => forallb (fun ch => let n := Z.of_nat (nat_of_ascii ch) in
                              (48 <=? n) && (n <=? 57)) cs
    end in
  match list_ascii_of_string text with
  | c :: rest =>
      if Ascii.eqb c "+"%char || Ascii.eqb c "-"%char then digits rest
      else digits (c :: rest)
  | [] => false
  end.

(** The texts the two versions of [validateInputs] convert. *)
Definition derived_fields (f : Form) : list string :=
  [f_seed f; f_multiplier f; f_increment f; f_count f].

Definition supplied_fields (f : Form) : list string :=
  [f_seed f; f_multiplier f; f_increment f; f_modulus f; f_count f].

(** Some text does not convert to an integer value. *)
Definition not_integer (texts : list string) : bool :=
  existsb (fun t => negb (isInteger (Number t))) texts.

(** A call failed with an error of kind [k]. *)
Definition fails_with (k : ErrorKind) (r : result Parsed) : Prop :=
  exists e, r = Throw e /\ kind e = k.

(** [new LCGGenerator(g.multiplier, g.increment, g.modulus, v)]: the
    parameters of [g] with the seed [v]. *)
Definition reseed (g : LCGGenerator) (v : number) : LCGGenerator :=
  mkLCG (multiplier g) (increment g) (modulus g) v.

(** The canvas shows the plot of the listed results, and no error message
    is shown beside results. *)
Definition display_ok (c : Canvas) (d : Display) : Prop :=
  discs d = plot c (resultsContainer d)
  /\ (errorMessage d <> None -> resultsContainer d = []).

(** The read-only modulus field shows the modulus of the count field
    whenever that field holds an integer [>= 1]. *)
Definition echo_ok (pg : Derived.Page) : Prop :=
  forall m, Derived.onCountInput (f_count (Derived.fields pg)) = Some m ->
            Derived.modulusField pg = Some m.

(** A number lies between two numbers. *)
Definition between (lo v hi : number) : Prop :=
  le lo v = true /\ le v hi = true.

(** A normalized value as valid samples have it: finite, in [[0, 1)]. *)
Definition unit_interval (v : number) : Prop :=
  exists q, v = Finite q /\ (0 <= q)%Q /\ (q < 1)%Q.

(** What a submission shows once validation has returned [p]: the error of
    a generation that fills its array, or the samples and their plot. *)
Definition shown_for (c : Canvas) (p : Parsed) : Display :=
  if exceeds_array (to_Z (p_count p))
  then mkDisplay (Some InvalidArrayLength) [] clear
  else
    let data := generateNormalized (generator_of p) (to_Z (p_count p)) in
    mkDisplay None data (plot c data).

(** A text made of white space only. *)
Definition blank (t : string) : bool :=
  forallb Parse.is_space (list_ascii_of_string t).

Definition blank_form (f : Form) : bool :=
  blank (f_seed f) && blank (f_multiplier f) && blank (f_increment f)
  && blank (f_modulus f) && blank (f_count f).

(** The form [f] with the text of [pre] typed before and that of [post]
    typed after each field. *)
Definition pad (pre f post : Form) : Form :=
  mkForm (f_seed pre ++ f_seed f ++ f_seed post)%string
         (f_multiplier pre ++ f_multiplier f ++ f_multiplier post)%string
         (f_increment pre ++ f_increment f ++ f_increment post)%string
         (f_modulus pre ++ f_modulus f ++ f_modulus post)%string
         (f_count pre ++ f_count f ++ f_count post)%string.

(** * Properties *)

Example round_tenth :
  round_double (1 # 10) = Finite (3602879701896397 # 36028797018963968).
Proof. vm_compute. reflexivity. Qed.

Example round_third :
  div (of_Z 1) (of_Z 3) = Finite (6004799503160661 # 18014398509481984).
Proof. vm_compute. reflexivity. Qed.

Example round_big : mul (of_Z 9007199254740991) (of_Z 3) = of_Z 27021597764222972.
Proof. vm_compute. reflexivity. Qed.

Example round_max : mul (of_Z (2^1023)) (of_Z 2) = PosInf.
Proof. vm_compute. reflexivity. Qed.

Example round_sub : round_double (1 # Z.to_pos (2 ^ 1075)) = Finite 0%Q.
Proof. vm_compute. reflexivity. Qed.

Example round_sub2 : round_double (3 # Z.to_pos (2 ^ 1075)) = Finite (1 # Z.to_pos (2^1073)).
Proof. vm_compute. reflexivity. Qed.

Example rem_neg : rem (of_Z (-7)) (of_Z 4) = of_Z (-3).
Proof. vm_compute. reflexivity. Qed.

Example scenario : generate (lcg_of 5 3 16 1) 5 = map of_Z [8; 11; 10; 5; 12].
Proof. vm_compute. reflexivity. Qed.

Example scenario_normalized :
  map normalized (generateNormalized (lcg_of 5 3 16 1) 5)
  = [Finite (1 # 2); Finite (11 # 16); Finite (5 # 8); Finite (5 # 16); Finite (3 # 4)].
Proof. vm_compute. reflexivity. Qed.

Example scenario_seed_16 :
  Derived.validateInputs (mkForm "16" "5" "3" EmptyString "10")
  = Throw (SeedOutOfRange (Some (of_Z 16))).
Proof. vm_compute. reflexivity. Qed.

Example scenario_bad : generate (lcg_of 9007199254740991 0 4 3) 1 = [of_Z 0].
Proof. vm_compute. reflexivity. Qed.

Example scenario_nan : generate (lcg_of (2^1023) 0 4 2) 2 = [NaN; NaN].
Proof. vm_compute. reflexivity. Qed.

Example np1 : nextPow2 (of_Z 1) = of_Z 2. Proof. vm_compute. reflexivity. Qed.
Example np10 : nextPow2 (of_Z 10) = of_Z 16. Proof. vm_compute. reflexivity. Qed.
Example np16 : nextPow2 (of_Z 16) = of_Z 16. Proof. vm_compute. reflexivity. Qed.
Example np17 : nextPow2 (of_Z 17) = of_Z 32. Proof. vm_compute. reflexivity. Qed.
Example npbig : nextPow2 (of_Z (3 * 2^1022)) = PosInf. Proof. vm_compute. reflexivity. Qed.
Example plot1 : map px (plot (mkCanvas 600 400) [mkSample (of_Z 1) (Finite (1#2)); mkSample (of_Z 1) (Finite (1#4)); mkSample (of_Z 1) (Finite (1#4))]) = [of_Z 40; of_Z 310; of_Z 580].
Proof. vm_compute. reflexivity. Qed.

Example nb1 : map Number ["";"12";"-3";"1.5";"1e3";"0x10";"abc";" 7 ";"1.";".5";".";"Infinity";"-Infinity";"+0x10";"1e";"12px";"1.0";"0";"1e-1";"-0";"0b101";"1.5e1"; "1e400"]%string
  = [of_Z 0; of_Z 12; of_Z (-3); Finite (3#2); of_Z 1000; of_Z 16; NaN; of_Z 7; of_Z 1; Finite (1#2); NaN; PosInf; NegInf; NaN; NaN; NaN; of_Z 1; of_Z 0;
     Finite (3602879701896397 # 36028797018963968); of_Z 0; of_Z 5; of_Z 15; PosInf].
Proof. vm_compute. reflexivity. Qed.

(** ** Rounding of small integers is exact *)

Lemma rne_exact (a d : Z) : 0 < d -> rne (a * d) d = a.
Proof.
  intros Hd. unfold rne.
  rewrite Z.mod_mul, Z.div_mul by lia.
  replace (2 * 0 <? d) with true by (symmetry; apply Z.ltb_lt; lia).
  reflexivity.
Qed.

Lemma rne_one (a : Z) : rne a 1 = a.
Proof.
  rewrite <- (Z.mul_1_r a) at 1. apply rne_exact. lia.
Qed.

Lemma ilog2_int (z : Z) : 0 < z -> ilog2 z 1 = Z.log2 z.
Proof.
  intros Hz. unfold ilog2.
  change (Z.log2 1) with 0. rewrite Z.sub_0_r.
  pose proof (Z.log2_nonneg z) as Hn.
  pose proof (Z.log2_spec z Hz) as [Hlo _].
  rewrite (Z.max_l 0 (- Z.log2 z)), (Z.max_r 0 (Z.log2 z)) by lia.
  replace (z * 2 ^ 0 <? 1 * 2 ^ Z.log2 z) with false; [reflexivity|].
  symmetry. apply Z.ltb_ge. lia.
Qed.

Lemma Qred_inject_Z (z : Z) : Qred (inject_Z z) = inject_Z z.
Proof.
  unfold Qred, inject_Z.
  pose proof (Z.ggcd_gcd z 1) as Hg.
  pose proof (Z.ggcd_correct_divisors z 1) as Hd.
  destruct (Z.ggcd z 1) as [g [aa bb]]. simpl in *.
  rewrite Z.gcd_1_r in Hg. subst g. destruct Hd as [Ha Hb].
  assert (Haa : aa = z) by lia. assert (Hbb : bb = 1) by lia.
  rewrite Haa, Hbb. reflexivity.
Qed.

Lemma scaled_exact (z k : Z) :
  0 <= k -> scaled (z * 2 ^ k) (- k) = inject_Z z.
Proof.
  intros Hk. unfold scaled.
  destruct (Z.eq_dec k 0) as [->|Hne].
  - simpl. rewrite !Z.mul_1_r. reflexivity.
  - replace (0 <=? - k) with false by (symmetry; apply Z.leb_gt; lia).
    rewrite Z.opp_involutive, <- Qred_inject_Z.
    apply Qred_complete. unfold Qeq, inject_Z. simpl.
    rewrite Z2Pos.id by (apply Z.pow_pos_nonneg; lia). lia.
Qed.

Lemma round_pos_int (b : bool) (z : Z) :
  0 < z <= 2 ^ 53 -> round_pos b z 1 = Finite (signed b (inject_Z z)).
Proof.
  intros [Hz Hle].
  destruct (Z.eq_dec z (2 ^ 53)) as [->|Hne].
  - destruct b; vm_compute; reflexivity.
  - assert (Hlt : z < 2 ^ 53) by lia.
    pose proof (Z.log2_nonneg z) as Hn.
    assert (Hl : Z.log2 z < 53) by (apply Z.log2_lt_pow2; lia).
    unfold round_pos, ulp_exp. rewrite ilog2_int by lia.
    rewrite Z.max_l by lia.
    replace (971 <=? Z.log2 z - 52) with false by (symmetry; apply Z.leb_gt; lia).
    simpl andb. cbv iota.
    unfold significand.
    replace (Z.log2 z - 52 <=? 0) with true by (symmetry; apply Z.leb_le; lia).
    rewrite rne_one.
    replace (- (Z.log2 z - 52)) with (52 - Z.log2 z) by lia.
    replace (scaled (z * 2 ^ (52 - Z.log2 z)) (Z.log2 z - 52))
      with (inject_Z z).
    + destruct b; reflexivity.
    + replace (Z.log2 z - 52) with (- (52 - Z.log2 z)) by lia.
      symmetry. apply scaled_exact. lia.
Qed.

Lemma round_double_int (z : Z) :
  - 2 ^ 53 <= z <= 2 ^ 53 -> round_double (inject_Z z) = of_Z z.
Proof.
  intros Hz. unfold round_double, of_Z. simpl Qnum. simpl Qden.
  destruct z as [|p|p]; [reflexivity| |].
  - rewrite round_pos_int by lia. reflexivity.
  - rewrite round_pos_int by lia. reflexivity.
Qed.

Lemma mul_round (a b : Z) :
  mul (of_Z a) (of_Z b) = round_double (inject_Z (a * b)).
Proof. reflexivity. Qed.

Lemma add_round (a b : Z) :
  add (of_Z a) (of_Z b) = round_double (inject_Z (a + b)).
Proof.
  unfold add, of_Z. f_equal.
  unfold Qplus, inject_Z. simpl. rewrite !Z.mul_1_r. reflexivity.
Qed.

Lemma mul_of_Z (a b : Z) :
  - 2 ^ 53 <= a * b <= 2 ^ 53 -> mul (of_Z a) (of_Z b) = of_Z (a * b).
Proof. intros H. rewrite mul_round. apply round_double_int, H. Qed.

Lemma add_of_Z (a b : Z) :
  - 2 ^ 53 <= a + b <= 2 ^ 53 -> add (of_Z a) (of_Z b) = of_Z (a + b).
Proof. intros H. rewrite add_round. apply round_double_int, H. Qed.

Lemma neg_of_Z (a : Z) : neg (of_Z a) = of_Z (- a).
Proof.
  unfold neg, of_Z.
  change (- inject_Z a)%Q with (inject_Z (- a)).
  rewrite Qred_inject_Z. reflexivity.
Qed.

Lemma sub_of_Z (a b : Z) :
  - 2 ^ 53 <= a - b <= 2 ^ 53 -> sub (of_Z a) (of_Z b) = of_Z (a - b).
Proof.
  intros H. unfold sub. rewrite neg_of_Z. apply add_of_Z. lia.
Qed.

Lemma rem_of_Z (a b : Z) :
  b <> 0 -> rem (of_Z a) (of_Z b) = of_Z (Z.rem a b).
Proof.
  intros Hb. unfold rem, of_Z, is_zero. simpl Qnum. simpl Qden.
  replace (b =? 0) with false by (symmetry; apply Z.eqb_neq; exact Hb).
  rewrite Z.mul_1_r, Z.mul_1_l.
  rewrite <- (Qred_inject_Z (Z.rem a b)). f_equal. apply Qred_complete.
  unfold Qeq, Qminus, Qplus, Qopp, Qmult, inject_Z. simpl.
  pose proof (Z.quot_rem' a b). lia.
Qed.

(** ** The loop of [generate] *)

Lemma generate_loop_spec (g : LCGGenerator) (count : Z) :
  forall (fuel : nat) (i : Z) (current : number) (values : list number),
    (Z.to_nat (count - i) <= fuel)%nat ->
    generate_loop fuel g i count current values
    = values ++ iterate g (Z.to_nat (count - i)) current.
Proof.
  induction fuel as [|fuel IH]; intros i current values Hf; simpl.
  - replace (Z.to_nat (count - i)) with O by lia. simpl.
    now rewrite app_nil_r.
  - destruct (i <? count) eqn:Hlt.
    + apply Z.ltb_lt in Hlt.
      rewrite IH by lia.
      replace (Z.to_nat (count - i)) with (S (Z.to_nat (count - (i + 1)))) by lia.
      simpl. now rewrite <- app_assoc.
    + apply Z.ltb_ge in Hlt.
      replace (Z.to_nat (count - i)) with O by lia. simpl.
      now rewrite app_nil_r.
Qed.

(** The fuel given by [generate] is enough: the loop leaves by its test,
    and more fuel changes nothing. *)
Lemma generate_loop_exits (g : LCGGenerator) (count : Z) (extra : nat) :
  generate_loop (Z.to_nat count + extra) g 0 count (seed g) [] = generate g count.
Proof.
  unfold generate. rewrite !generate_loop_spec by (rewrite Z.sub_0_r; lia).
  reflexivity.
Qed.

Lemma generate_iterate (g : LCGGenerator) (count : Z) :
  generate g count = iterate g (Z.to_nat count) (seed g).
Proof.
  unfold generate. rewrite generate_loop_spec by (rewrite Z.sub_0_r; lia).
  now rewrite Z.sub_0_r.
Qed.

Lemma iterate_length (g : LCGGenerator) (k : nat) :
  forall current, List.length (iterate g k current) = k.
Proof.
  induction k as [|k IH]; intros current; simpl; [reflexivity|].
  now rewrite IH.
Qed.

Lemma generate_length (g : LCGGenerator) (count : Z) :
  List.length (generate g count) = Z.to_nat count.
Proof. rewrite generate_iterate. apply iterate_length. Qed.

(** ** Exact turns *)

Section Exact.

Variables a c m s : Z.
Hypothesis Ha : 0 <= a.
Hypothesis Hc : 0 <= c.
Hypothesis Hm : 1 < m.
Hypothesis Hexact : exact_range a c m.

Let g := lcg_of a c m s.

Lemma next_exact (x : Z) :
  0 <= x < m -> next g (of_Z x) = of_Z ((a * x + c) mod m).
Proof.
  intros Hx. destruct Hexact as [Hb Hm53].
  assert (Hax : 0 <= a * x <= a * (m - 1)) by nia.
  unfold next, g, lcg_of. cbn [multiplier increment modulus].
  rewrite mul_of_Z by lia.
  rewrite add_of_Z by lia.
  rewrite rem_of_Z by lia.
  rewrite Z.rem_mod_nonneg by lia. reflexivity.
Qed.

Lemma lcg_range (x : Z) (i : nat) : 0 <= x < m -> 0 <= lcg a c m x i < m.
Proof.
  intros Hx. destruct i as [|i]; simpl; [exact Hx|].
  apply Z.mod_pos_bound. lia.
Qed.

Lemma lcg_shift (x : Z) (i : nat) :
  lcg a c m ((a * x + c) mod m) i = lcg a c m x (S i).
Proof.
  induction i as [|i IH]; simpl; [reflexivity|].
  rewrite IH. reflexivity.
Qed.

Lemma iterate_exact (k : nat) :
  forall x, 0 <= x < m ->
    iterate g k (of_Z x) = map (fun i => of_Z (lcg a c m x i)) (seq 1 k).
Proof.
  induction k as [|k IH]; intros x Hx; simpl; [reflexivity|].
  rewrite next_exact by exact Hx.
  f_equal.
  rewrite IH by (apply Z.mod_pos_bound; lia).
  rewrite <- (seq_shift k 1), map_map.
  apply map_ext. intros i. now rewrite lcg_shift.
Qed.

End Exact.

(** ** The recurrence (C1) *)

Lemma nth_error_map_seq {A : Type} (f : nat -> A) (k i : nat) :
  (1 <= i <= k)%nat -> nth_error (map f (seq 1 k)) (i - 1) = Some (f i).
Proof.
  intros Hi. rewrite nth_error_map, nth_error_seq.
  replace (i - 1 <? k)%nat with true by (symmetry; apply Nat.ltb_lt; lia).
  simpl. f_equal. f_equal. lia.
Qed.

(** C1, as stated, fails: with multiplier [2^53 - 1], increment [0],
    modulus [4] and seed [3] the first emitted value is [0], whereas the
    recurrence gives [x 1 = 1]; the product is rounded to a multiple of 4. *)
Lemma generate_recurrence_fails :
  valid_params 9007199254740991 0 4 3 /\
  lcg 9007199254740991 0 4 3 1 = 1 /\
  generate (lcg_of 9007199254740991 0 4 3) 1 = [of_Z 0] /\
  nth_error (generate (lcg_of 9007199254740991 0 4 3) 1) 0
  <> Some (of_Z (lcg 9007199254740991 0 4 3 1)).
Proof.
  split; [unfold valid_params; lia|].
  split; [reflexivity|].
  split; [vm_compute; reflexivity|].
  vm_compute. discriminate.
Qed.

(** C1 (amended): for valid parameters within the exact range
    [multiplier * (modulus - 1) + increment <= 2^53], [modulus <= 2^53], and
    every count [1 <= n < 2^32], the [i]-th value emitted by [generate(n)], counted
    from 1, is [x i] of the recurrence [x 0 = seed],
    [x i = (multiplier * x (i-1) + increment) mod modulus]; the seed itself is
    not emitted.  For multiplier 5, increment 3, modulus 16, seed 1 and
    count 5 the values are 8, 11, 10, 5, 12. *)
Theorem generate_recurrence (a c m s n : Z) :
  valid_params a c m s -> exact_range a c m -> 1 <= n < 2 ^ 32 ->
  (forall i : nat, (1 <= i <= Z.to_nat n)%nat ->
     nth_error (generate (lcg_of a c m s) n) (i - 1)
     = Some (of_Z (lcg a c m s i)))
  /\ generate (lcg_of 5 3 16 1) 5 = map of_Z [8; 11; 10; 5; 12].
Proof.
  intros (Ha & Hc & Hm & Hs) Hx Hn. split.
  - intros i Hi. rewrite generate_iterate. cbn [seed lcg_of].
    rewrite (iterate_exact a c m s Ha Hc Hm Hx) by exact Hs.
    apply (nth_error_map_seq (fun i => of_Z (lcg a c m s i))), Hi.
  - vm_compute. reflexivity.
Qed.

Lemma generate_recurrence_witness :
  nth_error (generate (lcg_of 5 3 16 1) 5) (2 - 1) = Some (of_Z 11).
Proof.
  refine (proj1 (generate_recurrence 5 3 16 1 5 _ _ _) 2%nat _).
  - unfold valid_params. lia.
  - unfold exact_range. lia.
  - lia.
  - simpl. lia.
Defined.

(** ** Rounding a quotient below one *)

Lemma rne_le (p d K : Z) : 0 < d -> p <= K * d -> rne p d <= K.
Proof.
  intros Hd Hp. unfold rne.
  pose proof (Z.div_mod p d ltac:(lia)) as Hdm.
  pose proof (Z.mod_pos_bound p d Hd) as Hr.
  assert (Hq : p / d <= K) by nia.
  destruct (Z.eq_dec (p / d) K) as [He|Hne].
  - assert (p mod d = 0) by nia.
    replace (2 * (p mod d) <? d) with true by (symmetry; apply Z.ltb_lt; lia).
    lia.
  - destruct (2 * (p mod d) <? d); [lia|].
    destruct (d <? 2 * (p mod d)); [lia|].
    destruct (Z.even (p / d)); lia.
Qed.

Lemma rne_nonneg (p d : Z) : 0 < d -> 0 <= p -> 0 <= rne p d.
Proof.
  intros Hd Hp. unfold rne.
  assert (0 <= p / d) by (apply Z.div_pos; lia).
  destruct (2 * (p mod d) <? d); [lia|].
  destruct (d <? 2 * (p mod d)); [lia|].
  destruct (Z.even (p / d)); lia.
Qed.

Lemma ilog2_neg (p d : Z) : 0 < p < d -> ilog2 p d < 0.
Proof.
  intros [Hp Hd]. unfold ilog2.
  assert (Hl : Z.log2 p <= Z.log2 d) by (apply Z.log2_le_mono; lia).
  destruct (Z.eq_dec (Z.log2 p) (Z.log2 d)) as [He|Hne].
  - rewrite He, Z.sub_diag. simpl.
    replace (p * 1 <? d * 1) with true by (symmetry; apply Z.ltb_lt; lia).
    lia.
  - destruct (_ <? _); lia.
Qed.

Lemma round_pos_below_one (p d : Z) :
  0 < p < d -> d <= 2 ^ 53 ->
  exists q, round_pos false p d = Finite q /\ (0 <= q)%Q /\ (q < 1)%Q.
Proof.
  intros Hp Hd.
  pose proof (ilog2_neg p d Hp) as He.
  unfold round_pos, ulp_exp.
  set (ue := Z.max (ilog2 p d - 52) (-1074)).
  assert (Hue : -1074 <= ue <= -53) by (unfold ue; lia).
  replace (971 <=? ue) with false by (symmetry; apply Z.leb_gt; lia).
  simpl andb. cbv iota.
  unfold significand, scaled.
  replace (ue <=? 0) with true by (symmetry; apply Z.leb_le; lia).
  replace (0 <=? ue) with false by (symmetry; apply Z.leb_gt; lia).
  set (k := - ue). set (n := rne (p * 2 ^ k) d).
  assert (Hk : 53 <= k) by (unfold k; lia).
  assert (Hpow : 2 ^ k = 2 ^ 53 * 2 ^ (k - 53)).
  { rewrite <- Z.pow_add_r by lia. f_equal. lia. }
  assert (Hpos : 0 < 2 ^ (k - 53)) by (apply Z.pow_pos_nonneg; lia).
  assert (Hn0 : 0 <= n).
  { apply rne_nonneg; [lia|]. apply Z.mul_nonneg_nonneg; lia. }
  assert (Hn1 : n <= 2 ^ k - 2 ^ (k - 53)).
  { apply rne_le; [lia|]. rewrite Hpow. nia. }
  exists (Qred (n # Z.to_pos (2 ^ k))). split; [reflexivity|].
  rewrite Qred_correct. unfold Qle, Qlt. simpl.
  rewrite Z2Pos.id by lia. lia.
Qed.

Lemma div_below_one (r m : Z) :
  0 <= r < m -> m <= 2 ^ 53 ->
  exists q, div (of_Z r) (of_Z m) = Finite q /\ (0 <= q)%Q /\ (q < 1)%Q.
Proof.
  intros Hr Hm. unfold div, of_Z, is_zero. simpl Qnum.
  replace (m =? 0) with false by (symmetry; apply Z.eqb_neq; lia).
  destruct m as [|pm|pm]; try lia.
  destruct r as [|pr|pr]; try lia.
  - exists 0%Q. split; [reflexivity|]. split; [apply Qle_refl|reflexivity].
  - unfold round_double, Qdiv, Qinv, Qmult, inject_Z. simpl.
    rewrite Pos.mul_1_r.
    apply round_pos_below_one; lia.
Qed.

(** ** Rounding of large integers stays finite *)

Lemma round_int_finite (z K : Z) :
  0 <= z <= 2 ^ K -> 0 <= K <= 1023 ->
  exists z', round_double (inject_Z z) = of_Z z' /\ 0 <= z' <= 2 ^ K.
Proof.
  intros [Hz0 HzK] HK.
  destruct (Z_lt_le_dec z (2 ^ 53)) as [Hsmall|Hbig].
  - exists z. split; [apply round_double_int; lia|lia].
  - assert (Hz : 0 < z) by lia.
    pose proof (Z.log2_spec z Hz) as [Hlo Hhi].
    assert (HL53 : 53 <= Z.log2 z) by (apply Z.log2_le_pow2; lia).
    assert (HLK : Z.log2 z <= K).
    { rewrite <- (Z.log2_pow2 K) by lia. apply Z.log2_le_mono. lia. }
    set (ue := Z.log2 z - 52).
    assert (Hpue : 0 < 2 ^ ue) by (apply Z.pow_pos_nonneg; unfold ue; lia).
    assert (HpK : 2 ^ K = 2 ^ (K - ue) * 2 ^ ue).
    { rewrite <- Z.pow_add_r by (unfold ue; lia). f_equal. lia. }
    set (n := rne z (2 ^ ue)).
    assert (Hn0 : 0 <= n) by (apply rne_nonneg; lia).
    assert (Hn1 : n <= 2 ^ (K - ue)) by (apply rne_le; lia).
    assert (Hlt : 2 ^ (K - ue) < 2 ^ (1024 - ue)).
    { apply Z.pow_lt_mono_r; unfold ue; lia. }
    exists (n * 2 ^ ue). split; [|split; [nia|rewrite HpK; nia]].
    destruct z as [|pz|pz]; try lia.
    unfold round_double. simpl Qnum. simpl Qden.
    unfold round_pos, ulp_exp. rewrite ilog2_int by lia.
    rewrite Z.max_l by lia. fold ue.
    unfold significand, scaled.
    replace (ue <=? 0) with false by (symmetry; apply Z.leb_gt; unfold ue; lia).
    replace (0 <=? ue) with true by (symmetry; apply Z.leb_le; unfold ue; lia).
    rewrite Z.mul_1_l. fold n.
    replace (2 ^ (1024 - ue) <=? n) with false by (symmetry; apply Z.leb_gt; lia).
    rewrite andb_false_r. reflexivity.
Qed.

Section Finite.

Variables a c m s : Z.
Hypothesis Ha : 0 <= a.
Hypothesis Hc : 0 <= c.
Hypothesis Hm : 1 < m.
Hypothesis Hfinite : finite_range a c m.

Let g := lcg_of a c m s.

Lemma next_in_range (x : Z) :
  0 <= x < m -> exists r, next g (of_Z x) = of_Z r /\ 0 <= r < m.
Proof.
  intros Hx. destruct Hfinite as (Hb & Hc' & Hm53).
  assert (Hax : 0 <= a * x <= 2 ^ 1022) by nia.
  unfold next, g, lcg_of. cbn [multiplier increment modulus].
  rewrite mul_round.
  destruct (round_int_finite (a * x) 1022 Hax ltac:(lia)) as (z1 & -> & Hz1).
  rewrite add_round.
  assert (Hsum : 0 <= z1 + c <= 2 ^ 1023).
  { change (2 ^ 1023) with (2 ^ 1022 + 2 ^ 1022). lia. }
  destruct (round_int_finite (z1 + c) 1023 Hsum ltac:(lia)) as (z2 & -> & Hz2).
  rewrite rem_of_Z by lia.
  rewrite Z.rem_mod_nonneg by lia.
  eexists. split; [reflexivity|]. apply Z.mod_pos_bound. lia.
Qed.

Lemma iterate_in_range (k : nat) :
  forall x, 0 <= x < m ->
    Forall (fun v => exists r, v = of_Z r /\ 0 <= r < m) (iterate g k (of_Z x)).
Proof.
  induction k as [|k IH]; intros x Hx; simpl; [constructor|].
  destruct (next_in_range x Hx) as (r & Hr & Hrange).
  rewrite Hr. constructor; [eauto|]. apply IH, Hrange.
Qed.

End Finite.

(** ** Samples (C2) *)

(** C2, as stated, fails: with multiplier [2^1023], increment [0],
    modulus [4] and seed [2] the product overflows to [Infinity], whose
    remainder is [NaN]; the sample's raw value is no integer of
    [[0, modulus)] and its normalized value is [NaN]. *)
Lemma samples_in_range_fails :
  valid_params (2 ^ 1023) 0 4 2 /\
  generateNormalized (lcg_of (2 ^ 1023) 0 4 2) 1 = [mkSample NaN NaN] /\
  (forall r : Z, raw (mkSample NaN NaN) <> of_Z r).
Proof.
  split; [unfold valid_params; lia|].
  split; [vm_compute; reflexivity|].
  intros r. simpl. discriminate.
Qed.

(** C2 (amended): for valid parameters with
    [multiplier * (modulus - 1) <= 2^1022], [increment <= 2^1022] and
    [modulus <= 2^53], and every [1 <= n < 2^32], [generateNormalized(n)]
    returns exactly [n] samples, in generation order; every sample has an
    integer raw value in [[0, modulus)], its normalized value is the quotient
    [raw / modulus] as the division operator computes it, and
    [0 <= normalized < 1]. *)
Theorem generateNormalized_samples (a c m s n : Z) :
  valid_params a c m s -> finite_range a c m -> 1 <= n < 2 ^ 32 ->
  let g := lcg_of a c m s in
  List.length (generateNormalized g n) = Z.to_nat n
  /\ map raw (generateNormalized g n) = generate g n
  /\ forall smp, In smp (generateNormalized g n) ->
       (exists r, raw smp = of_Z r /\ 0 <= r < m)
       /\ normalized smp = div (raw smp) (of_Z m)
       /\ exists q, normalized smp = Finite q /\ (0 <= q)%Q /\ (q < 1)%Q.
Proof.
  intros (Ha & Hc & Hm & Hs) Hx Hn g.
  unfold generateNormalized. split; [|split].
  - rewrite length_map. apply generate_length.
  - rewrite map_map. simpl. apply map_id.
  - intros smp Hin. apply in_map_iff in Hin as (v & <- & Hv).
    cbn [raw normalized]. unfold g in Hv |- *. cbn [modulus lcg_of].
    rewrite generate_iterate in Hv. cbn [seed lcg_of] in Hv.
    pose proof (iterate_in_range a c m s Ha Hc Hm Hx (Z.to_nat n) s Hs) as Hall.
    rewrite Forall_forall in Hall.
    destruct (Hall v Hv) as (r & -> & Hr).
    split; [eauto|]. split; [reflexivity|].
    apply div_below_one; [exact Hr|apply Hx].
Qed.

Lemma generateNormalized_samples_witness :
  List.length (generateNormalized (lcg_of 5 3 16 1) 5) = 5%nat.
Proof.
  refine (proj1 (generateNormalized_samples 5 3 16 1 5 _ _ _)).
  - unfold valid_params. lia.
  - unfold finite_range. lia.
  - lia.
Defined.

(** ** Exactness of the arithmetic (C9) *)

(** C9, as stated, fails: the fields seed 3, multiplier [2^53 - 1],
    increment 0 and count 4 pass the validator, which derives the modulus 4;
    the first emitted value is [0] although [(multiplier * 3 + 0) mod 4 = 1].
    The product [27021597764222973] has 55 bits and is rounded. *)
Lemma exact_arithmetic_fails :
  let f := mkForm "3" "9007199254740991" "0" EmptyString "4" in
  exists p,
    Derived.validateInputs f = Ok p
    /\ generator_of p = lcg_of 9007199254740991 0 4 3
    /\ generate (generator_of p) (to_Z (p_count p)) = map of_Z [0; 0; 0; 0]
    /\ (9007199254740991 * 3 + 0) mod 4 = 1
    /\ mul (of_Z 9007199254740991) (of_Z 3) <> of_Z (9007199254740991 * 3).
Proof.
  eexists. split; [vm_compute; reflexivity|].
  split; [reflexivity|].
  split; [vm_compute; reflexivity|].
  split; [reflexivity|].
  vm_compute. discriminate.
Qed.

(** C9 (amended): the generator computes in binary64 and has no guard of its
    own; for valid parameters with
    [multiplier * (modulus - 1) + increment <= 2^53], [modulus <= 2^53] and
    a count [1 <= n < 2^32] no operation rounds: every emitted value is an integer of [[0, modulus)]
    equal to [(multiplier * previous + increment) mod modulus], where
    [previous] is the seed for the first value and the value emitted before
    for the others. *)
Theorem generate_exact_arithmetic (a c m s n : Z) :
  valid_params a c m s -> exact_range a c m -> 1 <= n < 2 ^ 32 ->
  exists rs : list Z,
    generate (lcg_of a c m s) n = map of_Z rs
    /\ List.length rs = Z.to_nat n
    /\ forall (i : nat) (previous r : Z),
         nth_error (s :: rs) i = Some previous ->
         nth_error rs i = Some r ->
         r = (a * previous + c) mod m /\ 0 <= r < m.
Proof.
  intros (Ha & Hc & Hm & Hs) Hx Hn.
  exists (map (lcg a c m s) (seq 1 (Z.to_nat n))). split; [|split].
  - rewrite generate_iterate. cbn [seed lcg_of].
    rewrite (iterate_exact a c m s Ha Hc Hm Hx) by exact Hs.
    now rewrite map_map.
  - now rewrite length_map, length_seq.
  - intros i previous r Hp Hr.
    change (s :: map (lcg a c m s) (seq 1 (Z.to_nat n)))
      with (map (lcg a c m s) (seq 0 (S (Z.to_nat n)))) in Hp.
    rewrite nth_error_map, nth_error_seq in Hp, Hr.
    destruct (i <? Z.to_nat n)%nat; [|discriminate].
    destruct (i <? S (Z.to_nat n))%nat; [|discriminate].
    simpl in Hp, Hr. injection Hp as <-. injection Hr as <-.
    split; [reflexivity|]. apply Z.mod_pos_bound. lia.
Qed.

Lemma generate_exact_arithmetic_witness :
  exists rs : list Z, generate (lcg_of 5 3 16 1) 5 = map of_Z rs.
Proof.
  destruct (generate_exact_arithmetic 5 3 16 1 5) as (rs & H & _).
  - unfold valid_params. lia.
  - unfold exact_range. lia.
  - lia.
  - exists rs. exact H.
Defined.

(** ** Non-positive counts (C10) *)

(** C10: for every generator and every count [<= 0], [generate] and
    [generateNormalized] return the empty sequence; the loop body is never
    entered and nothing is thrown. *)
Theorem generate_nonpositive (g : LCGGenerator) (count : Z) :
  count <= 0 -> generate g count = [] /\ generateNormalized g count = [].
Proof.
  intros Hc.
  assert (H : generate g count = []).
  { unfold generate. replace (Z.to_nat count) with O by lia. reflexivity. }
  split; [exact H|]. unfold generateNormalized. now rewrite H.
Qed.

Lemma generate_nonpositive_witness :
  generate (lcg_of 5 3 16 1) (-2) = []
  /\ generateNormalized (lcg_of 5 3 16 1) (-2) = [].
Proof. apply (generate_nonpositive (lcg_of 5 3 16 1) (-2)). lia. Defined.

(** ** Comparisons of integers *)

Lemma lt_of_Z (a b : Z) : lt (of_Z a) (of_Z b) = (a <? b).
Proof.
  unfold lt, of_Z, Qcompare, inject_Z. simpl. rewrite !Z.mul_1_r.
  unfold Z.ltb. destruct (a ?= b); reflexivity.
Qed.

Lemma le_of_Z (a b : Z) : le (of_Z a) (of_Z b) = (a <=? b).
Proof.
  unfold le, of_Z, Qcompare, inject_Z. simpl. rewrite !Z.mul_1_r.
  unfold Z.leb. destruct (a ?= b); reflexivity.
Qed.

Lemma max_of_Z (a b : Z) : max (of_Z a) (of_Z b) = of_Z (Z.max a b).
Proof.
  unfold max. rewrite lt_of_Z. unfold of_Z at 1 2.
  destruct (a <? b) eqn:H.
  - apply Z.ltb_lt in H. now rewrite Z.max_r by lia.
  - apply Z.ltb_ge in H. now rewrite Z.max_l by lia.
Qed.

(** ** nextPow2 (C3) *)

Lemma pow2_of_Z (k : Z) : 0 <= k <= 53 -> pow2 k = of_Z (2 ^ k).
Proof.
  intros Hk. unfold pow2.
  replace (k <? 0) with false by (symmetry; apply Z.ltb_ge; lia).
  apply round_double_int.
  assert (0 < 2 ^ k) by (apply Z.pow_pos_nonneg; lia).
  assert (2 ^ k <= 2 ^ 53) by (apply Z.pow_le_mono_r; lia).
  lia.
Qed.

Lemma log2_rounds_up (n : Z) :
  1 <= n <= 2 ^ 47 -> n <> 2 ^ Z.log2 n -> log2_rounds_down n 1 (Z.log2 n) = false.
Proof.
  intros [Hn1 Hn2] Hne. unfold log2_rounds_down.
  pose proof (Z.log2_spec n ltac:(lia)) as [Hlo Hhi].
  pose proof (Z.log2_nonneg n) as He.
  destruct (1 <=? Z.log2 n) eqn:H1; [|reflexivity]. apply Z.leb_le in H1.
  assert (He46 : Z.log2 n <= 46).
  { destruct (Z.eq_dec n (2 ^ 47)) as [E|E].
    - exfalso. apply Hne. rewrite E. reflexivity.
    - assert (Z.log2 n < 47); [|lia]. apply Z.log2_lt_pow2; lia. }
  set (e := Z.log2 n) in *.
  assert (Hb : Z.log2 e <= 5).
  { assert (Z.log2 e < 6); [|lia]. apply Z.log2_lt_pow2; lia. }
  pose proof (Z.log2_nonneg e) as Hb0.
  assert (Hp1 : 2 ^ 48 <= 2 ^ (53 - Z.log2 e)) by (apply Z.pow_le_mono_r; lia).
  assert (Hp2 : 2 ^ e <= 2 ^ 46) by (apply Z.pow_le_mono_r; lia).
  cbn [andb]. apply Z.leb_gt.
  assert (Hd : 1 <= n - 1 * 2 ^ e) by lia.
  assert (H56 : 256 * 2 ^ 48 <= 256 * (n - 1 * 2 ^ e) * 2 ^ (53 - Z.log2 e)) by nia.
  assert (H54 : 177 * 1 * 2 ^ e <= 177 * 2 ^ 46) by lia.
  assert (177 * 2 ^ 46 < 256 * 2 ^ 48) by (vm_compute; reflexivity).
  lia.
Qed.

Lemma nextPow2_of_Z (n : Z) :
  1 <= n <= 2 ^ 47 ->
  nextPow2 (of_Z n)
  = max (of_Z 2)
        (pow2 (if n =? 2 ^ Z.log2 n then Z.log2 n else Z.log2 n + 1)).
Proof.
  intros Hn. unfold nextPow2. rewrite lt_of_Z.
  replace (n <? 1) with false by (symmetry; apply Z.ltb_ge; lia).
  unfold Math_ceil_log2. change (of_Z n) with (Finite (n # 1)).
  cbn [isFinite negb orb Qnum Qden].
  rewrite ilog2_int by lia. rewrite Z.mul_1_l.
  destruct (n =? 2 ^ Z.log2 n) eqn:Heq; [reflexivity|].
  apply Z.eqb_neq in Heq. now rewrite log2_rounds_up.
Qed.

(** C3: the comment of [nextPow2] promises the next power of two [>= n],
    at least 2.  The code breaks it on two integers that are Numbers: at
    [n = 2^49 + 1] the logarithm rounds to [49] and the result is
    [2^49 < n]; at [n = 3 * 2^1022] the exponent is 1024 and [2 ** 1024] is
    [Infinity], which is no power of two. *)
Theorem nextPow2_breaks_its_comment :
  round_double (inject_Z (2 ^ 49 + 1)) = of_Z (2 ^ 49 + 1)
  /\ nextPow2 (of_Z (2 ^ 49 + 1)) = of_Z (2 ^ 49)
  /\ lt (nextPow2 (of_Z (2 ^ 49 + 1))) (of_Z (2 ^ 49 + 1)) = true
  /\ round_double (inject_Z (3 * 2 ^ 1022)) = of_Z (3 * 2 ^ 1022)
  /\ nextPow2 (of_Z (3 * 2 ^ 1022)) = PosInf
  /\ (forall k : Z, nextPow2 (of_Z (3 * 2 ^ 1022)) <> of_Z (2 ^ k)).
Proof.
  split; [vm_compute; reflexivity|].
  split; [vm_compute; reflexivity|].
  split; [vm_compute; reflexivity|].
  split; [vm_compute; reflexivity|].
  assert (H : nextPow2 (of_Z (3 * 2 ^ 1022)) = PosInf) by (vm_compute; reflexivity).
  split; [exact H|]. intros k. rewrite H. discriminate.
Qed.

(** X21: on the integers [1 <= n <= 2^47] the function does what its
    comment says: [nextPow2(n)] is a power of two [2^k] with [k >= 1], it is
    [>= n], and half of it is [< n] unless it is [2] and [n <= 2];
    [nextPow2(1) = 2], [nextPow2(10) = 16]; and a successful validation in
    the deriving version returns [modulus = nextPow2(count)] for the count
    read from the form. *)
Theorem nextPow2_smallest (n : Z) :
  1 <= n <= 2 ^ 47 ->
  (exists k, 1 <= k
     /\ nextPow2 (of_Z n) = of_Z (2 ^ k)
     /\ n <= 2 ^ k
     /\ (2 ^ k / 2 < n \/ (2 ^ k = 2 /\ n <= 2)))
  /\ nextPow2 (of_Z 1) = of_Z 2
  /\ nextPow2 (of_Z 10) = of_Z 16
  /\ forall f p, Derived.validateInputs f = Ok p ->
       p_count p = Number (f_count f) /\ p_modulus p = nextPow2 (p_count p).
Proof.
  intros [Hn1 Hn2]. split; [|split; [|split]].
  - rewrite nextPow2_of_Z by lia.
    pose proof (Z.log2_spec n ltac:(lia)) as [Hlo Hhi].
    pose proof (Z.log2_nonneg n) as He.
    assert (He47 : Z.log2 n <= 47).
    { destruct (Z.eq_dec n (2 ^ 47)) as [->|Hne]; [reflexivity|].
      assert (Z.log2 n < 47) by (apply Z.log2_lt_pow2; lia). lia. }
    set (e := Z.log2 n) in *.
    assert (Hs : 2 ^ Z.succ e = 2 * 2 ^ e) by (apply Z.pow_succ_r; lia).
    destruct (n =? 2 ^ e) eqn:Heq.
    + apply Z.eqb_eq in Heq.
      rewrite pow2_of_Z, max_of_Z by lia.
      destruct (Z.eq_dec e 0) as [->|Hne].
      * exists 1. simpl in *. subst n. repeat split; try lia.
      * assert (Hp : 2 ^ e = 2 * 2 ^ (e - 1)).
        { rewrite <- Z.pow_succ_r by lia. f_equal. lia. }
        assert (0 < 2 ^ (e - 1)) by (apply Z.pow_pos_nonneg; lia).
        exists e. rewrite Z.max_r by lia.
        repeat split; try lia. left.
        rewrite Hp, Z.mul_comm, Z.div_mul by lia. lia.
    + apply Z.eqb_neq in Heq.
      rewrite pow2_of_Z, max_of_Z by lia.
      assert (0 < 2 ^ e) by (apply Z.pow_pos_nonneg; lia).
      exists (e + 1). replace (e + 1) with (Z.succ e) by lia. rewrite Hs.
      rewrite Z.max_r by lia.
      repeat split; try lia. left.
      rewrite Z.mul_comm, Z.div_mul by lia. lia.
  - vm_compute. reflexivity.
  - vm_compute. reflexivity.
  - intros f p. unfold Derived.validateInputs.
    destruct (existsb _ _); [discriminate|].
    destruct (_ || _); [discriminate|].
    destruct (_ || _); [discriminate|].
    intros H. injection H as <-. split; reflexivity.
Qed.

Lemma nextPow2_smallest_witness :
  exists k, 1 <= k /\ nextPow2 (of_Z 10) = of_Z (2 ^ k).
Proof.
  destruct (proj1 (nextPow2_smallest 10 ltac:(lia))) as (k & Hk & H & _).
  exists k. split; assumption.
Defined.

(** ** The plot mapper (C4) *)

Lemma round_pos_self (b : bool) (p : Z) :
  0 < p -> round_pos b p p = Finite (signed b (inject_Z 1)).
Proof.
  intros Hp.
  assert (Hi : ilog2 p p = 0).
  { unfold ilog2. rewrite Z.sub_diag. simpl.
    replace (p * 1 <? p * 1) with false by (symmetry; apply Z.ltb_ge; lia).
    reflexivity. }
  unfold round_pos, ulp_exp. rewrite Hi. simpl Z.max.
  change (971 <=? -52) with false. simpl andb. cbv iota.
  unfold significand. change (-52 <=? 0) with true. cbv iota.
  rewrite (Z.mul_comm p), rne_exact by exact Hp.
  change (scaled (2 ^ (- (-52))) (-52)) with (inject_Z 1).
  reflexivity.
Qed.

Lemma div_self (k : Z) : 0 < k -> div (of_Z k) (of_Z k) = of_Z 1.
Proof.
  intros Hk. unfold div, of_Z, is_zero. simpl Qnum.
  replace (k =? 0) with false by (symmetry; apply Z.eqb_neq; lia).
  destruct k as [|pk|pk]; try lia.
  unfold round_double, Qdiv, Qinv, Qmult, inject_Z. simpl.
  rewrite Pos.mul_1_r. now rewrite round_pos_self.
Qed.

Lemma div_zero_one : div (of_Z 0) (of_Z 1) = of_Z 0.
Proof. reflexivity. Qed.

Lemma mul_zero_l (w : Z) : mul (of_Z 0) (of_Z w) = of_Z 0.
Proof. reflexivity. Qed.

Lemma plot_from_length (pd : Padding) (c : Canvas) (len : Z) (data : list Sample) :
  forall index, List.length (plot_from pd c len index data) = List.length data.
Proof.
  induction data as [|s rest IH]; intros index; simpl; [reflexivity|].
  now rewrite IH.
Qed.

Lemma plot_from_nth (pd : Padding) (c : Canvas) (len : Z) (data : list Sample) :
  forall (index : Z) (i : nat) (s : Sample),
    nth_error data i = Some s ->
    nth_error (plot_from pd c len index data) i
    = Some (mkPoint (point_x pd c len (index + Z.of_nat i))
                    (point_y pd c (normalized s))).
Proof.
  induction data as [|s0 rest IH]; intros index i s Hs.
  - destruct i; discriminate.
  - destruct i as [|i]; simpl in Hs |- *.
    + injection Hs as ->. now rewrite Z.add_0_r.
    + rewrite (IH (index + 1) i s Hs). do 3 f_equal. lia.
Qed.

Lemma plot_with_from (pd : Padding) (c : Canvas) (data : list Sample) :
  plot_with pd c data = plot_from pd c (Z.of_nat (List.length data)) 0 data.
Proof. destruct data; reflexivity. Qed.

Lemma point_x_first (pd : Padding) (c : Canvas) :
  margins_in_range pd c -> point_x pd c 1 0 = of_Z (left pd).
Proof.
  intros (Hw & Hl & Hr). unfold point_x.
  rewrite !sub_of_Z by lia. simpl (1 - 1).
  rewrite max_of_Z. change (Z.max 0 1) with 1.
  rewrite div_zero_one, mul_zero_l, add_of_Z by lia.
  now rewrite Z.add_0_r.
Qed.

Lemma point_x_last (pd : Padding) (c : Canvas) (n : Z) :
  margins_in_range pd c -> 1 < n < 2 ^ 32 ->
  point_x pd c n (n - 1) = of_Z (width c - right pd).
Proof.
  intros (Hw & Hl & Hr) Hn. unfold point_x.
  rewrite !sub_of_Z by lia.
  rewrite max_of_Z, Z.max_l by lia.
  rewrite div_self by lia.
  rewrite mul_of_Z by lia.
  rewrite add_of_Z by lia.
  f_equal. lia.
Qed.

(** C4: for a sample sequence of length [n], margins [left], [right],
    [top], [bottom] and a canvas of the given width and height, the mapper
    yields one point per sample, in index order; the point of index [i] has
    [x = left + (i / max(n-1, 1)) * (width - left - right)] and
    [y = top + (1 - normalized) * (height - top - bottom)], computed with the
    operators of the language; for [n = 1] the point's [x] is [left], for
    [n > 1] the last point's [x] is [width - right]; [plot] is this mapper at
    the margins 40, 20, 20, 30.  Widths, margins and lengths are unsigned
    32-bit integers, as the canvas attributes and array lengths are. *)
Theorem plot_points (pd : Padding) (c : Canvas) (data : list Sample) :
  margins_in_range pd c ->
  Z.of_nat (List.length data) < 2 ^ 32 ->
  let n := Z.of_nat (List.length data) in
  let w := sub (sub (of_Z (width c)) (of_Z (left pd))) (of_Z (right pd)) in
  let h := sub (sub (of_Z (height c)) (of_Z (top pd))) (of_Z (bottom pd)) in
  List.length (plot_with pd c data) = List.length data
  /\ (forall (i : nat) (s : Sample),
        nth_error data i = Some s ->
        nth_error (plot_with pd c data) i
        = Some (mkPoint
                  (add (of_Z (left pd))
                       (mul (div (of_Z (Z.of_nat i))
                                 (max (sub (of_Z n) (of_Z 1)) (of_Z 1))) w))
                  (add (of_Z (top pd)) (mul (sub (of_Z 1) (normalized s)) h))))
  /\ (n = 1 -> map px (plot_with pd c data) = [of_Z (left pd)])
  /\ (1 < n -> option_map px (nth_error (plot_with pd c data) (List.length data - 1))
               = Some (of_Z (width c - right pd)))
  /\ plot c data = plot_with padding c data.
Proof.
  intros Hm Hlen n w h. rewrite plot_with_from. fold n.
  split; [apply plot_from_length|].
  split; [intros i s Hs; now rewrite (plot_from_nth pd c n data 0 i s Hs)|].
  split; [|split; [|reflexivity]].
  - intros Hn. destruct data as [|s [|s' rest]]; try (simpl in n; lia).
    simpl. now rewrite point_x_first.
  - intros Hn.
    destruct (nth_error data (List.length data - 1)) as [s|] eqn:Hs.
    + rewrite (plot_from_nth pd c n data 0 _ s Hs). simpl.
      f_equal. rewrite <- (point_x_last pd c n Hm) by lia.
      f_equal. unfold n. lia.
    + apply nth_error_None in Hs. lia.
Qed.

Lemma plot_points_witness :
  map px (plot_with padding (mkCanvas 600 400) [mkSample (of_Z 8) (Finite (1 # 2))])
  = [of_Z 40].
Proof.
  refine (proj1 (proj2 (proj2
    (plot_points padding (mkCanvas 600 400) [mkSample (of_Z 8) (Finite (1 # 2))] _ _))) _).
  - unfold margins_in_range. simpl. lia.
  - simpl. lia.
  - reflexivity.
Defined.

(** ** The integer rule of the validator (C5) *)

Lemma invalid_isInteger (v : number) : Derived.invalid v = negb (isInteger v).
Proof. destruct v; reflexivity. Qed.

Lemma derived_parse_rule (f : Form) :
  not_integer (derived_fields f) = true ->
  Derived.validateInputs f = Throw NotIntegers.
Proof.
  unfold not_integer, derived_fields, Derived.validateInputs. simpl existsb.
  rewrite !invalid_isInteger. intros ->. reflexivity.
Qed.

Lemma derived_parse_rule_inv (f : Form) :
  fails_with ParseError (Derived.validateInputs f) ->
  not_integer (derived_fields f) = true.
Proof.
  unfold not_integer, derived_fields, Derived.validateInputs, fails_with.
  simpl existsb. rewrite !invalid_isInteger.
  destruct (_ || _); [reflexivity|].
  destruct (_ || _); [intros (e & [= <-] & Hk); discriminate|].
  destruct (_ || _); [intros (e & [= <-] & Hk); discriminate|].
  intros (e & He & _). discriminate.
Qed.

Lemma supplied_parse_rule (confirm : bool) (f : Form) :
  not_integer (supplied_fields f) = true ->
  Supplied.validateInputs confirm f = (false, Throw NotIntegers).
Proof.
  unfold not_integer, supplied_fields, Supplied.validateInputs.
  cbv zeta. simpl existsb. intros ->. reflexivity.
Qed.

Lemma supplied_parse_rule_inv (confirm : bool) (f : Form) :
  fails_with ParseError (snd (Supplied.validateInputs confirm f)) ->
  not_integer (supplied_fields f) = true.
Proof.
  unfold not_integer, supplied_fields, Supplied.validateInputs, fails_with.
  cbv zeta. simpl existsb.
  destruct (_ || _); [reflexivity|].
  destruct (le _ _); [intros (e & [= <-] & Hk); discriminate|].
  destruct (_ || _); [intros (e & [= <-] & Hk); discriminate|].
  destruct (le _ _); [intros (e & [= <-] & Hk); discriminate|].
  destruct (gt _ _); [|intros (e & He & _); discriminate].
  destruct (negb confirm); simpl.
  - intros (e & [= <-] & Hk); discriminate.
  - intros (e & He & _). discriminate.
Qed.

(** C5, as stated, fails: the empty text is no base-10 integer, yet it
    converts to [0] and both versions accept a form whose seed is empty;
    ['1e1'] and ['0x10'] are no base-10 integers either and are accepted. *)
Lemma parse_rule_fails :
  let f := mkForm EmptyString "5" "3" "16" "10" in
  base10_integer (f_seed f) = false
  /\ Number (f_seed f) = of_Z 0
  /\ Derived.validateInputs f
     = Ok (mkParsed (of_Z 0) (of_Z 5) (of_Z 3) (of_Z 16) (of_Z 10))
  /\ Supplied.validateInputs true f
     = (false, Ok (mkParsed (of_Z 0) (of_Z 5) (of_Z 3) (of_Z 16) (of_Z 10)))
  /\ base10_integer "1e1" = false /\ Number "1e1" = of_Z 10
  /\ base10_integer "0x10" = false /\ Number "0x10" = of_Z 16.
Proof. vm_compute. repeat split. Qed.

(** C5 (amended): in both versions the validator fails with a ParseError
    exactly when the conversion [Number] of some field is not an integer
    value, whatever the other fields hold (this rule comes first); a text
    that converts to [NaN] and a text with a fractional value are rejected,
    as ['abc'] and ['1.5'] are. *)
Theorem validateInputs_parse_rule (f : Form) (confirm : bool) :
  (fails_with ParseError (Derived.validateInputs f)
   <-> not_integer (derived_fields f) = true)
  /\ (fails_with ParseError (snd (Supplied.validateInputs confirm f))
      <-> not_integer (supplied_fields f) = true)
  /\ (forall t, In t (derived_fields f) -> Number t = NaN ->
        Derived.validateInputs f = Throw NotIntegers)
  /\ Number "abc" = NaN
  /\ isInteger (Number "1.5") = false.
Proof.
  split; [|split; [|split; [|split]]].
  - split; [apply derived_parse_rule_inv|].
    intros H. exists NotIntegers. split; [now apply derived_parse_rule|reflexivity].
  - split; [apply supplied_parse_rule_inv|].
    intros H. exists NotIntegers. rewrite supplied_parse_rule by exact H.
    split; reflexivity.
  - intros t Hin Hnan. apply derived_parse_rule.
    unfold not_integer. apply existsb_exists. exists t.
    split; [exact Hin|]. now rewrite Hnan.
  - vm_compute. reflexivity.
  - vm_compute. reflexivity.
Qed.

(** ** Negative values (C6) *)

(** C6, as stated, fails: the version with a supplied modulus lets a negative
    multiplier (and a negative increment) through, and reports a negative
    seed as a seed out of range rather than as a RangeError. *)
Lemma negative_rule_fails :
  Supplied.validateInputs true (mkForm "1" "-5" "-3" "16" "10")
  = (false, Ok (mkParsed (of_Z 1) (of_Z (-5)) (of_Z (-3)) (of_Z 16) (of_Z 10)))
  /\ lt (Number "-5") (of_Z 0) = true
  /\ Supplied.generates true (mkForm "1" "-5" "-3" "16" "10") = true
  /\ Supplied.validateInputs true (mkForm "-1" "5" "3" "16" "10")
     = (false, Throw (SeedOutOfRange None))
  /\ kind (SeedOutOfRange None) <> RangeError.
Proof. vm_compute. repeat split. discriminate. Qed.

(** C6 (amended): when every field converts to an integer, the deriving
    version rejects a negative seed, multiplier or increment with a
    RangeError, thrown before the generator is built; the other version rejects a supplied modulus [<= 1] with a RangeError
    without asking for confirmation, and does not test the sign of the
    multiplier or of the increment. *)
Theorem validateInputs_negative (f : Form) (confirm : bool) :
  (not_integer (derived_fields f) = false ->
   lt (Number (f_seed f)) (of_Z 0) = true
   \/ lt (Number (f_multiplier f)) (of_Z 0) = true
   \/ lt (Number (f_increment f)) (of_Z 0) = true ->
   Derived.validateInputs f = Throw InvalidValues
   /\ fails_with RangeError (Derived.validateInputs f))
  /\ (not_integer (supplied_fields f) = false ->
      le (Number (f_modulus f)) (of_Z 1) = true ->
      Supplied.validateInputs confirm f = (false, Throw ModulusTooSmall)
      /\ fails_with RangeError (snd (Supplied.validateInputs confirm f))).
Proof.
  split.
  - unfold not_integer, derived_fields. intros Hint Hneg.
    assert (H : Derived.validateInputs f = Throw InvalidValues).
    { unfold Derived.validateInputs. cbv zeta. simpl existsb in Hint |- *.
      rewrite !invalid_isInteger, Hint.
      destruct Hneg as [-> | [-> | ->]]; rewrite ?orb_true_r; reflexivity. }
    split; [exact H|]. exists InvalidValues. now rewrite H.
  - unfold not_integer, supplied_fields. intros Hint Hmod.
    assert (H : Supplied.validateInputs confirm f = (false, Throw ModulusTooSmall)).
    { unfold Supplied.validateInputs. cbv zeta. simpl existsb in Hint |- *.
      now rewrite Hint, Hmod. }
    split; [exact H|]. exists ModulusTooSmall. now rewrite H.
Qed.

Lemma validateInputs_negative_witness :
  Derived.validateInputs (mkForm "-1" "5" "3" EmptyString "10") = Throw InvalidValues
  /\ Supplied.validateInputs true (mkForm "1" "5" "3" "1" "10")
     = (false, Throw ModulusTooSmall).
Proof.
  split.
  - refine (proj1 (proj1 (validateInputs_negative
      (mkForm "-1" "5" "3" EmptyString "10") true) _ _)).
    + vm_compute. reflexivity.
    + left. vm_compute. reflexivity.
  - refine (proj1 (proj2 (validateInputs_negative
      (mkForm "1" "5" "3" "1" "10") true) _ _)).
    + vm_compute. reflexivity.
    + vm_compute. reflexivity.
Defined.

(** ** A count of zero (C7) *)




(** ** Declining the confirmation (C8) *)

(** C8, as stated, fails: a cancelled submission starts by emptying the
    error region, so a display that showed an error is not left as it was;
    and the deriving version never asks: 150 samples are generated at once. *)
Lemma cancellation_changes_display :
  let f := mkForm "1" "5" "3" "16" "150" in
  let d := mkDisplay (Some CountTooSmall) [] clear in
  let c := mkCanvas 600 400 in
  Supplied.validateInputs false (Supplied.getInputValues f) = (true, Throw Cancelled)
  /\ Supplied.handleSubmit false c f d = mkDisplay None [] clear
  /\ Supplied.handleSubmit false c f d <> d
  /\ List.length (resultsContainer (Derived.handleSubmit c f d)) = 150%nat.
Proof.
  split; [vm_compute; reflexivity|].
  split; [vm_compute; reflexivity|].
  split; [vm_compute; discriminate|].
  vm_compute. reflexivity.
Qed.

(** C8 (amended): in the version with a supplied modulus, whenever a
    submission is valid but for its count [> 100], the confirmation is
    requested, whatever the answer; if the user declines, validation ends
    with the cancellation error, of a kind of its own, no sample is
    generated, and the submission leaves the result list and the plot as
    they were and the error region empty (a message shown before is
    removed). *)
Theorem handleSubmit_cancelled (c : Canvas) (f : Form) (d : Display) (p : Parsed) :
  snd (Supplied.validateInputs true (Supplied.getInputValues f)) = Ok p ->
  gt (p_count p) (of_Z 100) = true ->
  (forall answer,
     fst (Supplied.validateInputs answer (Supplied.getInputValues f)) = true)
  /\ Supplied.validateInputs false (Supplied.getInputValues f)
     = (true, Throw Cancelled)
  /\ kind Cancelled = UserCancellation
  /\ Supplied.generates false f = false
  /\ Supplied.handleSubmit false c f d
     = mkDisplay None (resultsContainer d) (discs d).
Proof.
  intros Hok Hgt.
  assert (Hv : forall answer,
             Supplied.validateInputs answer (Supplied.getInputValues f)
             = (true, if answer then Ok p else Throw Cancelled)).
  { intros answer.
    unfold Supplied.validateInputs in Hok |- *. cbv zeta in Hok |- *.
    destruct (existsb _ _); [discriminate Hok|].
    destruct (le _ (of_Z 1)); [discriminate Hok|].
    destruct (lt _ _ || ge _ _); [discriminate Hok|].
    destruct (le _ (of_Z 0)); [discriminate Hok|].
    destruct (gt _ (of_Z 100)) eqn:Hc; simpl in Hok; injection Hok as Hp.
    - destruct answer; simpl; [rewrite Hp|]; reflexivity.
    - rewrite <- Hp in Hgt. cbn [p_count] in Hgt.
      change (trim (f_count f)) with (f_count (Supplied.getInputValues f)) in Hgt.
      rewrite Hc in Hgt. discriminate Hgt. }
  split; [intros answer; now rewrite Hv|].
  split; [apply Hv|]. split; [reflexivity|].
  unfold Supplied.generates, Supplied.handleSubmit. rewrite Hv. simpl.
  split; reflexivity.
Qed.

Lemma handleSubmit_cancelled_witness :
  Supplied.handleSubmit false (mkCanvas 600 400) (mkForm "1" "5" "3" "16" "150")
    (mkDisplay None [mkSample (of_Z 8) (Finite (1 # 2))] [])
  = mkDisplay None [mkSample (of_Z 8) (Finite (1 # 2))] [].
Proof.
  refine (proj2 (proj2 (proj2 (proj2 (handleSubmit_cancelled
    (mkCanvas 600 400) (mkForm "1" "5" "3" "16" "150")
    (mkDisplay None [mkSample (of_Z 8) (Finite (1 # 2))] [])
    (mkParsed (of_Z 1) (of_Z 5) (of_Z 3) (of_Z 16) (of_Z 150)) _ _))))).
  - vm_compute. reflexivity.
  - vm_compute. reflexivity.
Defined.

(** * Further properties of the code *)

(** ** The generator for arbitrary parameters *)

(** X1: whatever the parameters (valid or not), for an integer count below
    the array limit [2^32] (beyond which [push] throws),
    [generate(count)] returns [max(count, 0)] values, and
    [generateNormalized(count)] as many samples, whose raw values are those
    of [generate(count)] in the same order. *)
Theorem generate_count_any (g : LCGGenerator) (count : Z) :
  count < 2 ^ 32 ->
  exceeds_array count = false
  /\ Z.of_nat (List.length (generate g count)) = Z.max count 0
  /\ List.length (generateNormalized g count) = List.length (generate g count)
  /\ map raw (generateNormalized g count) = generate g count.
Proof.
  intros Hc. split; [unfold exceeds_array; apply Z.leb_gt; exact Hc|].
  split; [rewrite generate_length; lia|].
  unfold generateNormalized. split.
  - apply length_map.
  - rewrite map_map. simpl. apply map_id.
Qed.

Lemma generate_count_any_witness :
  Z.of_nat (List.length (generate (lcg_of 5 3 0 7) 3)) = Z.max 3 0.
Proof.
  refine (proj1 (proj2 (generate_count_any (lcg_of 5 3 0 7) 3 _))).
  reflexivity.
Defined.

Lemma iterate_reseed (g : LCGGenerator) (v : number) (k : nat) :
  forall current, iterate (reseed g v) k current = iterate g k current.
Proof.
  induction k as [|k IH]; intros current; simpl; [reflexivity|].
  now rewrite IH.
Qed.

Lemma last_cons {A : Type} (l : list A) :
  forall x d, last (x :: l) d = last l x.
Proof.
  induction l as [|y l IH]; intros x d; [reflexivity|].
  change (last (x :: y :: l) d) with (last (y :: l) d).
  now rewrite !IH.
Qed.

Lemma iterate_app (g : LCGGenerator) (k n : nat) :
  forall current,
    iterate g (k + n) current
    = iterate g k current ++ iterate g n (last (iterate g k current) current).
Proof.
  induction k as [|k IH]; intros current; [reflexivity|].
  cbn [Nat.add iterate]. rewrite IH. cbn [app]. f_equal. f_equal.
  now rewrite last_cons.
Qed.

(** X2: the generator keeps no state besides the value it emitted last:
    for integer counts with [k + n] below the array limit [2^32], the first
    [k] values of a run of length [k + n] are the run of length [k], and the
    values after them are those of a generator with the same parameters
    seeded with the last of them (with the seed itself when [k = 0]). *)
Theorem generate_resume (g : LCGGenerator) (k n : Z) :
  0 <= k -> 0 <= n -> k + n < 2 ^ 32 ->
  exceeds_array (k + n) = false
  /\ generate g (k + n)
     = generate g k ++ generate (reseed g (last (generate g k) (seed g))) n.
Proof.
  intros Hk Hn Hkn. split; [unfold exceeds_array; apply Z.leb_gt; exact Hkn|].
  rewrite !generate_iterate.
  rewrite Z2Nat.inj_add by lia. rewrite iterate_app.
  cbn [seed reseed]. now rewrite iterate_reseed.
Qed.

Lemma generate_resume_witness :
  generate (lcg_of 5 3 16 1) (2 + 3)
  = generate (lcg_of 5 3 16 1) 2
    ++ generate (reseed (lcg_of 5 3 16 1)
                   (last (generate (lcg_of 5 3 16 1) 2) (seed (lcg_of 5 3 16 1)))) 3.
Proof.
  refine (proj2 (generate_resume (lcg_of 5 3 16 1) 2 3 _ _ _)).
  - lia.
  - lia.
  - reflexivity.
Defined.

Lemma next_NaN (g : LCGGenerator) : next g NaN = NaN.
Proof.
  unfold next. destruct (multiplier g); reflexivity.
Qed.

Lemma iterate_NaN (g : LCGGenerator) (k : nat) :
  Forall (fun v => v = NaN) (iterate g k NaN).
Proof.
  induction k as [|k IH]; simpl; [constructor|].
  rewrite next_NaN. constructor; [reflexivity|exact IH].
Qed.

Lemma iterate_NaN_absorbs (g : LCGGenerator) (k : nat) :
  forall current (i j : nat) (v : number),
    (i <= j)%nat ->
    nth_error (iterate g k current) i = Some NaN ->
    nth_error (iterate g k current) j = Some v ->
    v = NaN.
Proof.
  induction k as [|k IH]; intros current i j v Hij Hi Hj.
  - destruct i; discriminate.
  - cbn [iterate] in Hi, Hj. destruct i as [|i].
    + cbn in Hi. injection Hi as Hn. rewrite Hn in Hj.
      destruct j as [|j]; cbn in Hj; [congruence|].
      apply nth_error_In in Hj.
      pose proof (iterate_NaN g k) as Hall. rewrite Forall_forall in Hall.
      now apply Hall.
    + destruct j as [|j]; [lia|]. cbn in Hi, Hj.
      apply (IH (next g current) i j v); [lia|exact Hi|exact Hj].
Qed.

(** X3: [NaN] is absorbing: once a run has emitted [NaN], every later value
    of the run is [NaN], for any parameters. *)
Theorem generate_NaN_absorbs (g : LCGGenerator) (count : Z) (i j : nat) (v : number) :
  (i <= j)%nat ->
  nth_error (generate g count) i = Some NaN ->
  nth_error (generate g count) j = Some v ->
  v = NaN.
Proof.
  rewrite generate_iterate. apply iterate_NaN_absorbs.
Qed.

Lemma generate_NaN_absorbs_witness :
  nth 1 (generate (lcg_of (2 ^ 1023) 0 4 2) 2) (of_Z 0) = NaN.
Proof.
  refine (generate_NaN_absorbs (lcg_of (2 ^ 1023) 0 4 2) 2 0 1 _ _ _ _).
  - lia.
  - vm_compute. reflexivity.
  - vm_compute. reflexivity.
Defined.

Lemma rem_zero (v : number) : rem v (of_Z 0) = NaN.
Proof. destruct v; reflexivity. Qed.

(** X4: the generator does not guard its modulus: with modulus [0] every
    remainder is [NaN], so every sample of every run, for any multiplier,
    increment, seed and count, has raw and normalized value [NaN]. *)
Theorem generate_modulus_zero (g : LCGGenerator) (count : Z) :
  modulus g = of_Z 0 ->
  Forall (fun smp => raw smp = NaN /\ normalized smp = NaN)
         (generateNormalized g count).
Proof.
  intros Hm.
  assert (Hall : forall k current, Forall (fun v => v = NaN) (iterate g k current)).
  { intros k current. destruct k as [|k]; [constructor|]. cbn [iterate].
    assert (Hn : next g current = NaN) by (unfold next; rewrite Hm; apply rem_zero).
    rewrite Hn. constructor; [reflexivity|apply iterate_NaN]. }
  unfold generateNormalized. rewrite generate_iterate.
  apply Forall_map. eapply Forall_impl; [|apply Hall].
  intros v ->. rewrite Hm. split; reflexivity.
Qed.

Lemma generate_modulus_zero_witness :
  Forall (fun smp => raw smp = NaN /\ normalized smp = NaN)
         (generateNormalized (lcg_of 5 3 0 1) 3).
Proof. apply (generate_modulus_zero (lcg_of 5 3 0 1) 3). reflexivity. Defined.

(** ** nextPow2 on arbitrary numbers *)

Lemma round_pos_cases (b : bool) (p d : Z) :
  (exists q, round_pos b p d = Finite q)
  \/ round_pos b p d = (if b then NegInf else PosInf).
Proof.
  unfold round_pos. destruct (_ && _); [right; reflexivity|left; eauto].
Qed.

Lemma pow2_cases (k : Z) : (exists q, pow2 k = Finite q) \/ pow2 k = PosInf.
Proof.
  unfold pow2. destruct (k <? 0) eqn:Hk.
  - unfold round_double. simpl Qnum. apply (round_pos_cases false).
  - apply Z.ltb_ge in Hk.
    assert (Hp : 0 < 2 ^ k) by (apply Z.pow_pos_nonneg; lia).
    unfold round_double, inject_Z. simpl Qnum. simpl Qden.
    destruct (2 ^ k) as [|p|p]; try lia. apply (round_pos_cases false).
Qed.

Lemma lt_le (a b : number) : lt a b = true -> le a b = true.
Proof.
  destruct a as [x| | |], b as [y| | |]; simpl; try congruence.
  destruct (x ?= y)%Q; congruence.
Qed.

Lemma nextPow2_ge_two (n : number) : le (of_Z 2) (nextPow2 n) = true.
Proof.
  unfold nextPow2.
  destruct (negb (isFinite n) || lt n (of_Z 1)); [reflexivity|].
  destruct n as [q| | |]; try reflexivity.
  destruct (pow2_cases (Math_ceil_log2 (Qnum q) (Zpos (Qden q)))) as [[v ->] | ->].
  - unfold max. destruct (lt (of_Z 2) (Finite v)) eqn:Hlt.
    + unfold of_Z at 1. now apply lt_le.
    + reflexivity.
  - reflexivity.
Qed.

(** X5: [nextPow2] never returns less than [2], nor [NaN], whatever it is
    given; for [NaN], the infinities and every number below [1] (zero, the
    negative numbers, the fractions) it returns [2]. *)
Theorem nextPow2_floor (n : number) :
  le (of_Z 2) (nextPow2 n) = true
  /\ (isFinite n = false \/ lt n (of_Z 1) = true -> nextPow2 n = of_Z 2).
Proof.
  split; [apply nextPow2_ge_two|].
  intros [Hf | Hl]; unfold nextPow2.
  - now rewrite Hf.
  - rewrite Hl, orb_true_r. reflexivity.
Qed.

Lemma nextPow2_floor_witness : nextPow2 (Finite (1 # 2)) = of_Z 2.
Proof.
  apply (proj2 (nextPow2_floor (Finite (1 # 2)))). right. reflexivity.
Defined.

(** ** What a successful validation guarantees *)

Lemma isInteger_Finite (v : number) :
  isInteger v = true -> exists q, v = Finite q.
Proof. destruct v; simpl; try discriminate. eauto. Qed.

Lemma lt_false_le (x y : Q) : lt (Finite x) (Finite y) = false -> le (Finite y) (Finite x) = true.
Proof.
  simpl. rewrite <- (Qcompare_antisym x y).
  destruct (x ?= y)%Q; simpl; congruence.
Qed.

Lemma le_false_lt (x y : Q) : le (Finite x) (Finite y) = false -> lt (Finite y) (Finite x) = true.
Proof.
  simpl. rewrite <- (Qcompare_antisym x y).
  destruct (x ?= y)%Q; simpl; congruence.
Qed.

Lemma le_two_not_small (v : number) (x : Q) :
  le (of_Z 2) v = true -> le v (Finite x) = false -> lt (Finite x) v = true.
Proof.
  destruct v as [y| | |]; simpl; try congruence.
  intros _. rewrite <- (Qcompare_antisym y x).
  destruct (y ?= x)%Q; simpl; congruence.
Qed.

Lemma derived_ok_count (f : Form) (p : Parsed) :
  Derived.validateInputs f = Ok p ->
  p_count p = Number (f_count f)
  /\ isInteger (p_count p) = true
  /\ le (of_Z 1) (p_count p) = true
  /\ p_modulus p = nextPow2 (p_count p).
Proof.
  unfold Derived.validateInputs. cbv zeta. simpl existsb.
  rewrite !invalid_isInteger.
  destruct (isInteger (Number (f_seed f))); [|discriminate].
  destruct (isInteger (Number (f_multiplier f))); [|discriminate].
  destruct (isInteger (Number (f_increment f))); [|discriminate].
  destruct (isInteger (Number (f_count f))) eqn:Hc; [|discriminate].
  cbn [negb orb].
  destruct (lt (Number (f_seed f)) (of_Z 0)); [discriminate|].
  destruct (lt (Number (f_multiplier f)) (of_Z 0)); [discriminate|].
  destruct (lt (Number (f_increment f)) (of_Z 0)); [discriminate|].
  destruct (lt (Number (f_count f)) (of_Z 1)) eqn:Hc1; [discriminate|].
  cbn [orb].
  destruct (ge (Number (f_seed f)) (nextPow2 (Number (f_count f)))); [discriminate|].
  intros [= <-]. cbn [p_count p_modulus].
  destruct (isInteger_Finite _ Hc) as (qc & Ec). rewrite Ec in *.
  repeat split; try assumption. now apply lt_false_le.
Qed.

(** X6: what the deriving version returns on success: the four numbers read
    are integers, seed, multiplier and increment are [>= 0], the count is
    [>= 1], the modulus is [nextPow2(count)], it is [>= 2], and
    [seed < modulus]. *)
Theorem derived_validateInputs_ok (f : Form) (p : Parsed) :
  Derived.validateInputs f = Ok p ->
  Forall (fun v => isInteger v = true)
         [p_seed p; p_multiplier p; p_increment p; p_count p]
  /\ le (of_Z 0) (p_seed p) = true
  /\ le (of_Z 0) (p_multiplier p) = true
  /\ le (of_Z 0) (p_increment p) = true
  /\ le (of_Z 1) (p_count p) = true
  /\ p_modulus p = nextPow2 (p_count p)
  /\ le (of_Z 2) (p_modulus p) = true
  /\ lt (p_seed p) (p_modulus p) = true.
Proof.
  unfold Derived.validateInputs. cbv zeta. simpl existsb.
  rewrite !invalid_isInteger.
  destruct (isInteger (Number (f_seed f))) eqn:Hs; [|discriminate].
  destruct (isInteger (Number (f_multiplier f))) eqn:Hm; [|discriminate].
  destruct (isInteger (Number (f_increment f))) eqn:Hi; [|discriminate].
  destruct (isInteger (Number (f_count f))) eqn:Hc; [|discriminate].
  simpl.
  destruct (lt (Number (f_seed f)) (of_Z 0)) eqn:Hs0; [discriminate|].
  destruct (lt (Number (f_multiplier f)) (of_Z 0)) eqn:Hm0; [discriminate|].
  destruct (lt (Number (f_increment f)) (of_Z 0)) eqn:Hi0; [discriminate|].
  destruct (lt (Number (f_count f)) (of_Z 1)) eqn:Hc1; [discriminate|].
  simpl.
  destruct (ge (Number (f_seed f)) (nextPow2 (Number (f_count f)))) eqn:Hge;
    [discriminate|].
  intros [= <-]. cbn [p_seed p_multiplier p_increment p_count p_modulus].
  destruct (isInteger_Finite _ Hs) as (qs & Es).
  destruct (isInteger_Finite _ Hm) as (qm & Em).
  destruct (isInteger_Finite _ Hi) as (qi & Ei).
  destruct (isInteger_Finite _ Hc) as (qc & Ec).
  pose proof (nextPow2_ge_two (Number (f_count f))) as H2.
  rewrite Es, Em, Ei, Ec in *.
  split; [repeat constructor; assumption|].
  split; [now apply lt_false_le|].
  split; [now apply lt_false_le|].
  split; [now apply lt_false_le|].
  split; [now apply lt_false_le|].
  split; [reflexivity|]. split; [exact H2|].
  unfold ge in Hge. now apply le_two_not_small.
Qed.

Lemma derived_validateInputs_ok_witness :
  lt (of_Z 1) (of_Z 16) = true.
Proof.
  refine (proj2 (proj2 (proj2 (proj2 (proj2 (proj2 (proj2
    (derived_validateInputs_ok (mkForm "1" "5" "3" EmptyString "10")
       (mkParsed (of_Z 1) (of_Z 5) (of_Z 3) (of_Z 16) (of_Z 10)) _)))))))).
  vm_compute. reflexivity.
Defined.

Lemma supplied_ok_count (confirm : bool) (f : Form) (p : Parsed) :
  snd (Supplied.validateInputs confirm f) = Ok p ->
  isInteger (p_count p) = true /\ lt (of_Z 0) (p_count p) = true.
Proof.
  unfold Supplied.validateInputs. cbv zeta. simpl existsb.
  destruct (isInteger (Number (f_seed f))); [|discriminate].
  destruct (isInteger (Number (f_multiplier f))); [|discriminate].
  destruct (isInteger (Number (f_increment f))); [|discriminate].
  destruct (isInteger (Number (f_modulus f))); [|discriminate].
  destruct (isInteger (Number (f_count f))) eqn:Hc; [|discriminate].
  cbn [negb orb].
  destruct (le (Number (f_modulus f)) (of_Z 1)); [discriminate|].
  destruct (lt (Number (f_seed f)) (of_Z 0) || _); [discriminate|].
  destruct (le (Number (f_count f)) (of_Z 0)) eqn:Hc0; [discriminate|].
  intros Hok.
  assert (Ep : p_count p = Number (f_count f)).
  { match type of Hok with
    | snd (if ?t then _ else _) = _ => destruct t; [destruct confirm|]
    end; simpl in Hok; try discriminate; injection Hok as <-; reflexivity. }
  rewrite Ep. split; [exact Hc|].
  destruct (isInteger_Finite _ Hc) as (qc & Ec). rewrite Ec in *.
  now apply le_false_lt.
Qed.

(** X7: what the version with a supplied modulus returns on success, with
    or without confirmation: the five numbers read are integers, the modulus
    is [> 1], the count is [> 0] and [0 <= seed < modulus]; the signs of the
    multiplier and of the increment are free. *)
Theorem supplied_validateInputs_ok (confirm : bool) (f : Form) (p : Parsed) :
  snd (Supplied.validateInputs confirm f) = Ok p ->
  Forall (fun v => isInteger v = true)
         [p_seed p; p_multiplier p; p_increment p; p_modulus p; p_count p]
  /\ lt (of_Z 1) (p_modulus p) = true
  /\ lt (of_Z 0) (p_count p) = true
  /\ le (of_Z 0) (p_seed p) = true
  /\ lt (p_seed p) (p_modulus p) = true.
Proof.
  unfold Supplied.validateInputs. cbv zeta. simpl existsb.
  destruct (isInteger (Number (f_seed f))) eqn:Hs; [|discriminate].
  destruct (isInteger (Number (f_multiplier f))) eqn:Hm; [|discriminate].
  destruct (isInteger (Number (f_increment f))) eqn:Hi; [|discriminate].
  destruct (isInteger (Number (f_modulus f))) eqn:Hmod; [|discriminate].
  destruct (isInteger (Number (f_count f))) eqn:Hc; [|discriminate].
  simpl.
  destruct (le (Number (f_modulus f)) (of_Z 1)) eqn:Hm1; [discriminate|].
  destruct (lt (Number (f_seed f)) (of_Z 0)) eqn:Hs0; [discriminate|].
  simpl.
  destruct (ge (Number (f_seed f)) (Number (f_modulus f))) eqn:Hge; [discriminate|].
  destruct (le (Number (f_count f)) (of_Z 0)) eqn:Hc0; [discriminate|].
  intros Hok.
  assert (Ep : p = mkParsed (Number (f_seed f)) (Number (f_multiplier f))
                   (Number (f_increment f)) (Number (f_modulus f))
                   (Number (f_count f))).
  { match type of Hok with
    | snd (if ?t then _ else _) = _ => destruct t; [destruct confirm|]
    end; simpl in Hok; congruence. }
  subst p. cbn [p_seed p_multiplier p_increment p_count p_modulus].
  destruct (isInteger_Finite _ Hs) as (qs & Es).
  destruct (isInteger_Finite _ Hmod) as (qm & Em).
  destruct (isInteger_Finite _ Hc) as (qc & Ec).
  rewrite Es, Em, Ec in *.
  split; [repeat constructor; assumption|].
  split; [now apply le_false_lt|].
  split; [now apply le_false_lt|].
  split; [now apply lt_false_le|].
  unfold ge in Hge. now apply le_false_lt.
Qed.

Lemma supplied_validateInputs_ok_witness :
  lt (of_Z 1) (of_Z 16) = true.
Proof.
  refine (proj2 (proj2 (proj2 (proj2
    (supplied_validateInputs_ok true (mkForm "1" "-5" "3" "16" "10")
       (mkParsed (of_Z 1) (of_Z (-5)) (of_Z 3) (of_Z 16) (of_Z 10)) _))))).
  vm_compute. reflexivity.
Defined.

(** ** The confirmation dialog *)

(** X8: in the version with a supplied modulus, whether the dialog is shown
    does not depend on the answer it would get; when it is not shown the
    answer has no effect on the outcome; and it is shown only for a form
    that passes every test and whose count exceeds 100. *)
Theorem supplied_confirm_only_when_needed (f : Form) (answer : bool) :
  fst (Supplied.validateInputs answer f) = fst (Supplied.validateInputs (negb answer) f)
  /\ (fst (Supplied.validateInputs answer f) = false ->
      Supplied.validateInputs true f = Supplied.validateInputs false f)
  /\ (fst (Supplied.validateInputs answer f) = true ->
      gt (Number (f_count f)) (of_Z 100) = true
      /\ exists p, Supplied.validateInputs true f = (true, Ok p)).
Proof.
  unfold Supplied.validateInputs. cbv zeta.
  destruct (existsb _ _); [repeat split; discriminate|].
  destruct (le _ (of_Z 1)); [repeat split; discriminate|].
  destruct (lt _ _ || ge _ _); [repeat split; discriminate|].
  destruct (le _ (of_Z 0)); [repeat split; discriminate|].
  destruct (gt (Number (f_count f)) (of_Z 100)).
  - destruct answer; cbn; repeat split; try discriminate; eauto.
  - repeat split; discriminate.
Qed.

(** ** White space around the fields *)

Lemma drop_space_suffix (cs : list ascii) :
  exists pre, cs = pre ++ Parse.drop_space cs.
Proof.
  induction cs as [|c cs (pre & IH)]; [exists []; reflexivity|].
  simpl. destruct (Parse.is_space c).
  - exists (c :: pre). simpl. now f_equal.
  - exists []. reflexivity.
Qed.

Lemma drop_space_head (cs : list ascii) :
  match Parse.drop_space cs with
  | c :: _ => Parse.is_space c = false
  | [] => True
  end.
Proof.
  induction cs as [|c cs IH]; simpl; [exact I|].
  destruct (Parse.is_space c) eqn:Hc; [exact IH|exact Hc].
Qed.

Lemma drop_space_fixed (cs : list ascii) :
  match cs with c :: _ => Parse.is_space c = false | [] => True end ->
  Parse.drop_space cs = cs.
Proof.
  destruct cs as [|c cs]; simpl; [reflexivity|]. now intros ->.
Qed.

Lemma trim_idempotent (cs : list ascii) : Parse.trim (Parse.trim cs) = Parse.trim cs.
Proof.
  unfold Parse.trim.
  set (A := Parse.drop_space cs).
  set (R := Parse.drop_space (rev A)).
  assert (HR : Parse.drop_space R = R).
  { apply drop_space_fixed. apply drop_space_head. }
  assert (HB : Parse.drop_space (rev R) = rev R).
  { apply drop_space_fixed.
    destruct (drop_space_suffix (rev A)) as (pre & Hpre). fold R in Hpre.
    assert (HA : A = rev R ++ rev pre).
    { rewrite <- (rev_involutive A), Hpre, rev_app_distr. reflexivity. }
    pose proof (drop_space_head cs) as Hh. fold A in Hh.
    destruct (rev R) as [|c r]; [exact I|].
    rewrite HA in Hh. exact Hh. }
  rewrite HB, rev_involutive, HR. reflexivity.
Qed.

Lemma Number_trim (t : string) : Number (trim t) = Number t.
Proof.
  unfold Number, trim.
  now rewrite list_ascii_of_string_of_list_ascii, trim_idempotent.
Qed.

Lemma derived_validate_trim (f : Form) :
  Derived.validateInputs (Derived.getInputValues f) = Derived.validateInputs f.
Proof.
  unfold Derived.validateInputs, Derived.getInputValues.
  cbn [f_seed f_multiplier f_increment f_count].
  now rewrite !Number_trim.
Qed.

Lemma supplied_validate_trim (confirm : bool) (f : Form) :
  Supplied.validateInputs confirm (Supplied.getInputValues f)
  = Supplied.validateInputs confirm f.
Proof.
  unfold Supplied.validateInputs, Supplied.getInputValues.
  cbn [f_seed f_multiplier f_increment f_modulus f_count].
  now rewrite !Number_trim.
Qed.

Lemma drop_space_blank (pre cs : list ascii) :
  forallb Parse.is_space pre = true ->
  Parse.drop_space (pre ++ cs) = Parse.drop_space cs.
Proof.
  induction pre as [|c pre IH]; [reflexivity|].
  cbn [forallb app Parse.drop_space]. intros H.
  apply andb_prop in H as [-> H]. now apply IH.
Qed.

Lemma drop_space_app (cs post : list ascii) :
  Parse.drop_space cs <> [] ->
  Parse.drop_space (cs ++ post) = Parse.drop_space cs ++ post.
Proof.
  induction cs as [|c cs IH]; [intros H; now contradiction H|].
  cbn [app Parse.drop_space].
  destruct (Parse.is_space c); [exact IH|reflexivity].
Qed.

Lemma forallb_rev {A : Type} (p : A -> bool) (l : list A) :
  forallb p l = true -> forallb p (rev l) = true.
Proof.
  rewrite !forallb_forall. intros H x Hx. apply H. now apply in_rev.
Qed.

Lemma trim_pad (pre cs post : list ascii) :
  forallb Parse.is_space pre = true ->
  forallb Parse.is_space post = true ->
  Parse.trim (pre ++ cs ++ post) = Parse.trim cs.
Proof.
  intros Hpre Hpost. unfold Parse.trim.
  rewrite (drop_space_blank pre) by exact Hpre.
  destruct (Parse.drop_space cs) as [|c r] eqn:Hcs.
  - assert (Hall : forallb Parse.is_space cs = true).
    { clear - Hcs. induction cs as [|c cs IH]; [reflexivity|].
      cbn [Parse.drop_space] in Hcs. cbn [forallb].
      destruct (Parse.is_space c); [now apply IH|discriminate]. }
    rewrite (drop_space_blank cs) by exact Hall.
    rewrite <- (app_nil_r post), (drop_space_blank post) by exact Hpost.
    reflexivity.
  - rewrite drop_space_app by (rewrite Hcs; discriminate).
    rewrite Hcs, rev_app_distr.
    rewrite (drop_space_blank (rev post)) by (apply forallb_rev; exact Hpost).
    reflexivity.
Qed.

Lemma list_ascii_of_string_app (s t : string) :
  list_ascii_of_string (s ++ t) = list_ascii_of_string s ++ list_ascii_of_string t.
Proof.
  induction s as [|c s IH]; [reflexivity|].
  cbn [String.append list_ascii_of_string app]. now rewrite IH.
Qed.

Lemma trim_blank (pre t post : string) :
  blank pre = true -> blank post = true ->
  trim (pre ++ t ++ post) = trim t.
Proof.
  intros Hpre Hpost. unfold trim.
  rewrite !list_ascii_of_string_app. now rewrite trim_pad.
Qed.

Lemma Number_blank (pre t post : string) :
  blank pre = true -> blank post = true ->
  Number (pre ++ t ++ post) = Number t.
Proof.
  intros Hpre Hpost. unfold Number.
  rewrite !list_ascii_of_string_app. now rewrite trim_pad.
Qed.

Lemma trim_trim (t : string) : trim (trim t) = trim t.
Proof.
  unfold trim.
  now rewrite list_ascii_of_string_of_list_ascii, trim_idempotent.
Qed.

(** X9: white space typed before or after the text of any field (TAB, LF,
    VT, FF, CR, SP, NBSP) changes nothing: [getInputValues] reads the same
    values, [validateInputs] called on the untrimmed fields has the same
    outcome, a submission shows the same, and the listener of the count
    field derives the same modulus, in both versions; and reading trimmed
    values again changes nothing. *)
Theorem validateInputs_ignores_spaces (pre f post : Form) (confirm : bool)
    (c : Canvas) (d : Display) :
  blank_form pre = true -> blank_form post = true ->
  Derived.getInputValues (pad pre f post) = Derived.getInputValues f
  /\ Supplied.getInputValues (pad pre f post) = Supplied.getInputValues f
  /\ Derived.validateInputs (pad pre f post) = Derived.validateInputs f
  /\ Supplied.validateInputs confirm (pad pre f post)
     = Supplied.validateInputs confirm f
  /\ Derived.handleSubmit c (pad pre f post) d = Derived.handleSubmit c f d
  /\ Supplied.handleSubmit confirm c (pad pre f post) d
     = Supplied.handleSubmit confirm c f d
  /\ Derived.onCountInput (f_count (pad pre f post))
     = Derived.onCountInput (f_count f)
  /\ Derived.getInputValues (Derived.getInputValues f) = Derived.getInputValues f
  /\ Supplied.getInputValues (Supplied.getInputValues f)
     = Supplied.getInputValues f.
Proof.
  unfold blank_form. intros Hpre Hpost.
  repeat (apply andb_prop in Hpre as [Hpre ?]).
  repeat (apply andb_prop in Hpost as [Hpost ?]).
  assert (HD : Derived.getInputValues (pad pre f post) = Derived.getInputValues f).
  { unfold Derived.getInputValues, pad.
    cbn [f_seed f_multiplier f_increment f_modulus f_count].
    now rewrite !trim_blank. }
  assert (HS : Supplied.getInputValues (pad pre f post) = Supplied.getInputValues f).
  { unfold Supplied.getInputValues, pad.
    cbn [f_seed f_multiplier f_increment f_modulus f_count].
    now rewrite !trim_blank. }
  split; [exact HD|]. split; [exact HS|].
  split.
  { rewrite <- (derived_validate_trim (pad pre f post)), HD.
    apply derived_validate_trim. }
  split.
  { rewrite <- (supplied_validate_trim confirm (pad pre f post)), HS.
    apply supplied_validate_trim. }
  split; [unfold Derived.handleSubmit; now rewrite HD|].
  split; [unfold Supplied.handleSubmit; now rewrite HS|].
  split.
  { unfold Derived.onCountInput, pad. cbn [f_count].
    now rewrite Number_blank. }
  split.
  - unfold Derived.getInputValues.
    cbn [f_seed f_multiplier f_increment f_modulus f_count].
    now rewrite !trim_trim.
  - unfold Supplied.getInputValues.
    cbn [f_seed f_multiplier f_increment f_modulus f_count].
    now rewrite !trim_trim.
Qed.

Lemma validateInputs_ignores_spaces_witness :
  Derived.validateInputs (mkForm " 1" "5  " " 3 " "16" "  10 ")
  = Derived.validateInputs (mkForm "1" "5" "3" "16" "10").
Proof.
  refine (proj1 (proj2 (proj2 (validateInputs_ignores_spaces
    (mkForm " " EmptyString " " EmptyString "  ")
    (mkForm "1" "5" "3" "16" "10")
    (mkForm EmptyString "  " " " EmptyString " ")
    true (mkCanvas 600 400) (mkDisplay None [] []) _ _)))).
  - reflexivity.
  - reflexivity.
Defined.

(** ** The read-only modulus field *)

Lemma onCountInput_of_ok (f : Form) (p : Parsed) :
  Derived.validateInputs (Derived.getInputValues f) = Ok p ->
  Derived.onCountInput (f_count f) = Some (p_modulus p).
Proof.
  intros Hok.
  rewrite derived_validate_trim in Hok.
  destruct (derived_ok_count f p Hok) as (Hc & Hci & Hc1 & Hm).
  unfold Derived.onCountInput. cbv zeta. rewrite <- Hc.
  unfold ge. rewrite Hci, Hc1, Hm. reflexivity.
Qed.

Lemma echo_ok_step (c : Canvas) (pg : Derived.Page) (e : Derived.Event) :
  echo_ok pg -> echo_ok (Derived.step c pg e).
Proof.
  intros Hpg. destruct e; try exact Hpg.
  - intros m Hm. exact Hm.
  - intros m Hm. cbn in Hm |- *. unfold Derived.modulusAfterSubmit.
    destruct (Derived.validateInputs (Derived.getInputValues (Derived.fields pg)))
      as [p|e] eqn:Hv.
    + rewrite (onCountInput_of_ok _ p Hv) in Hm. exact Hm.
    + apply Hpg, Hm.
  - intros m Hm. exact Hm.
Qed.

(** X10: in the deriving version, from construction on and through any
    sequence of edits, submissions and resets, the read-only modulus field
    shows [nextPow2(count)] whenever the count field holds an integer
    [>= 1]; hence a submission that validates uses exactly the modulus the
    field was showing. *)
Theorem modulus_field_in_step (c : Canvas) (f : Form) (d : Display)
    (events : list Derived.Event) :
  let pg := fold_left (Derived.step c) events (Derived.construct f d) in
  echo_ok pg
  /\ forall p,
       Derived.validateInputs (Derived.getInputValues (Derived.fields pg)) = Ok p ->
       Derived.modulusField pg = Some (p_modulus p).
Proof.
  intros pg.
  assert (Hinv : echo_ok pg).
  { unfold pg. clear pg.
    assert (H0 : echo_ok (Derived.construct f d)).
    { intros m. unfold Derived.construct, Derived.onCountInput. cbn.
      destruct (_ && _); [congruence|discriminate]. }
    revert H0. generalize (Derived.construct f d).
    induction events as [|e es IH]; intros pg0 H0; [exact H0|].
    simpl. apply IH. now apply echo_ok_step. }
  split; [exact Hinv|].
  intros p Hok. apply Hinv. now apply onCountInput_of_ok.
Qed.

(** ** What the page shows *)

Lemma derived_never_cancelled (f : Form) :
  Derived.validateInputs f <> Throw Cancelled.
Proof.
  unfold Derived.validateInputs.
  destruct (existsb _ _); [discriminate|].
  destruct (_ || _); [discriminate|].
  destruct (_ || _); discriminate.
Qed.

Lemma derived_handleSubmit_cases (c : Canvas) (f : Form) (d : Display) :
  (exists p, Derived.validateInputs (Derived.getInputValues f) = Ok p
     /\ Derived.handleSubmit c f d = shown_for c p)
  \/ (exists e, Derived.validateInputs (Derived.getInputValues f) = Throw e
        /\ Derived.handleSubmit c f d = mkDisplay (Some e) [] clear).
Proof.
  unfold Derived.handleSubmit.
  pose proof (derived_never_cancelled (Derived.getInputValues f)) as Hn.
  destruct (Derived.validateInputs (Derived.getInputValues f)) as [p|e].
  - left. exists p. split; reflexivity.
  - right. exists e. split; [reflexivity|].
    destruct e; try reflexivity. congruence.
Qed.

Lemma supplied_handleSubmit_cases (answer : bool) (c : Canvas) (f : Form) (d : Display) :
  (exists p, snd (Supplied.validateInputs answer (Supplied.getInputValues f)) = Ok p
     /\ Supplied.handleSubmit answer c f d = shown_for c p)
  \/ (snd (Supplied.validateInputs answer (Supplied.getInputValues f)) = Throw Cancelled
      /\ Supplied.handleSubmit answer c f d
         = mkDisplay None (resultsContainer d) (discs d))
  \/ (exists e, e <> Cancelled
        /\ snd (Supplied.validateInputs answer (Supplied.getInputValues f)) = Throw e
        /\ Supplied.handleSubmit answer c f d = mkDisplay (Some e) [] clear).
Proof.
  unfold Supplied.handleSubmit.
  destruct (snd (Supplied.validateInputs answer (Supplied.getInputValues f))) as [p|e].
  - left. exists p. split; reflexivity.
  - right. destruct e;
      try (right; eexists; split; [|split; reflexivity]; discriminate).
    left. split; reflexivity.
Qed.

(** X11: the display stays coherent.  In both versions every event keeps
    the canvas equal to the plot of the listed results and never shows an
    error message beside results; a reset establishes this, and so does
    every submission of the deriving version and every submission of the
    other version that is not cancelled, whatever was shown before. *)
Theorem display_stays_coherent (c : Canvas) :
  (forall pg e,
     (display_ok c (Derived.shown pg) \/ e = Derived.Submit \/ e = Derived.Reset) ->
     display_ok c (Derived.shown (Derived.step c pg e)))
  /\ (forall pg e,
        (display_ok c (Supplied.shown pg) \/ e = Supplied.Reset
         \/ exists answer, e = Supplied.Submit answer
              /\ snd (Supplied.validateInputs answer
                        (Supplied.getInputValues (Supplied.fields pg)))
                 <> Throw Cancelled) ->
        display_ok c (Supplied.shown (Supplied.step c pg e))).
Proof.
  assert (Hreset : display_ok c (mkDisplay None [] clear)).
  { split; [reflexivity|]. intros _. reflexivity. }
  assert (Herr : forall e, display_ok c (mkDisplay (Some e) [] clear)).
  { intros e. split; [reflexivity|]. intros _. reflexivity. }
  assert (Hdata : forall p, display_ok c (shown_for c p)).
  { intros p. unfold shown_for. destruct (exceeds_array _); [apply Herr|].
    split; [reflexivity|]. intros H. now contradiction H. }
  split.
  - intros pg e H. destruct e; cbn [Derived.step Derived.shown];
      try (destruct H as [H | [H | H]]; [exact H|discriminate H|discriminate H]).
    + destruct (derived_handleSubmit_cases c (Derived.fields pg) (Derived.shown pg))
        as [(p & _ & ->) | (e & _ & ->)]; [apply Hdata|apply Herr].
    + exact Hreset.
  - intros pg e H. destruct e as [f|answer|]; cbn [Supplied.step Supplied.shown].
    + destruct H as [H | [H | (a & H & _)]]; [exact H|discriminate H|discriminate H].
    + destruct (supplied_handleSubmit_cases answer c (Supplied.fields pg) (Supplied.shown pg))
        as [(p & _ & ->) | [(Hc & ->) | (e & _ & _ & ->)]];
        [apply Hdata| |apply Herr].
      destruct H as [(Hd & He) | [H | (a & [= <-] & Hn)]];
        [|discriminate H|congruence].
      split; [exact Hd|]. intros Hne. now contradiction Hne.
    + exact Hreset.
Qed.

Lemma to_Z_count (v : number) :
  isInteger v = true -> le (of_Z 1) v = true -> 1 <= to_Z v.
Proof.
  intros Hi Hl. destruct v as [q| | |]; try discriminate.
  simpl in Hi |- *. apply Z.eqb_eq in Hi.
  assert (Hq : 1 * Zpos (Qden q) <= Qnum q * 1).
  { unfold le, of_Z, Qcompare, inject_Z in Hl. cbn [Qnum Qden] in Hl.
    destruct (1 * Zpos (Qden q) ?= Qnum q * 1) eqn:Hcmp; try discriminate.
    - apply Z.compare_eq in Hcmp. lia.
    - rewrite Z.compare_lt_iff in Hcmp. lia. }
  pose proof (Z.div_mod (Qnum q) (Zpos (Qden q)) ltac:(lia)) as Hdm.
  nia.
Qed.

Lemma plot_length (c : Canvas) (data : list Sample) :
  List.length (plot c data) = List.length data.
Proof.
  unfold plot. rewrite plot_with_from. apply plot_from_length.
Qed.

(** X12: in both versions a submission that validates has [count >= 1].
    If [count < 2^32] it shows no error, lists the samples of the generator
    built from the validated parameters, exactly [count] of them, and draws
    one disc per sample.  If [count >= 2^32] the generation fills its array
    and throws; the submission then shows that error, an empty list and a
    cleared canvas. *)
Theorem handleSubmit_success (c : Canvas) (f : Form) (d : Display) (answer : bool) :
  (forall p, Derived.validateInputs (Derived.getInputValues f) = Ok p ->
     1 <= to_Z (p_count p)
     /\ (to_Z (p_count p) < 2 ^ 32 ->
         let data := generateNormalized (generator_of p) (to_Z (p_count p)) in
         Derived.handleSubmit c f d = mkDisplay None data (plot c data)
         /\ Z.of_nat (List.length data) = to_Z (p_count p)
         /\ List.length (plot c data) = List.length data)
     /\ (2 ^ 32 <= to_Z (p_count p) ->
         Derived.handleSubmit c f d = mkDisplay (Some InvalidArrayLength) [] clear))
  /\ (forall p,
        snd (Supplied.validateInputs answer (Supplied.getInputValues f)) = Ok p ->
        1 <= to_Z (p_count p)
        /\ (to_Z (p_count p) < 2 ^ 32 ->
            let data := generateNormalized (generator_of p) (to_Z (p_count p)) in
            Supplied.handleSubmit answer c f d = mkDisplay None data (plot c data)
            /\ Z.of_nat (List.length data) = to_Z (p_count p)
            /\ List.length (plot c data) = List.length data)
        /\ (2 ^ 32 <= to_Z (p_count p) ->
            Supplied.handleSubmit answer c f d
            = mkDisplay (Some InvalidArrayLength) [] clear)).
Proof.
  assert (Hshown : forall p, 1 <= to_Z (p_count p) ->
            (to_Z (p_count p) < 2 ^ 32 ->
             let data := generateNormalized (generator_of p) (to_Z (p_count p)) in
             shown_for c p = mkDisplay None data (plot c data)
             /\ Z.of_nat (List.length data) = to_Z (p_count p)
             /\ List.length (plot c data) = List.length data)
            /\ (2 ^ 32 <= to_Z (p_count p) ->
                shown_for c p = mkDisplay (Some InvalidArrayLength) [] clear)).
  { intros p Hn. unfold shown_for, exceeds_array. split; intros Hb.
    - replace (2 ^ 32 <=? to_Z (p_count p)) with false
        by (symmetry; apply Z.leb_gt; exact Hb).
      split; [reflexivity|]. split; [|apply plot_length].
      unfold generateNormalized. rewrite length_map, generate_length. lia.
    - replace (2 ^ 32 <=? to_Z (p_count p)) with true
        by (symmetry; apply Z.leb_le; exact Hb).
      reflexivity. }
  split; intros p Hok.
  - destruct (derived_ok_count _ p Hok) as (_ & Hci & Hc1 & _).
    pose proof (to_Z_count _ Hci Hc1) as Hn.
    assert (E : Derived.handleSubmit c f d = shown_for c p)
      by (unfold Derived.handleSubmit; now rewrite Hok).
    rewrite E. split; [exact Hn|]. now apply Hshown.
  - destruct (supplied_ok_count _ _ p Hok) as (Hci & Hc0).
    assert (Hn : 1 <= to_Z (p_count p)).
    { destruct (p_count p) as [q| | |]; try discriminate.
      simpl in Hci, Hc0 |- *. apply Z.eqb_eq in Hci.
      unfold Qcompare, inject_Z in Hc0. cbn [Qnum Qden] in Hc0.
      destruct (0 * Zpos (Qden q) ?= Qnum q * 1) eqn:Hcmp; try discriminate.
      rewrite Z.compare_lt_iff in Hcmp.
      pose proof (Z.div_mod (Qnum q) (Zpos (Qden q)) ltac:(lia)) as Hdm.
      nia. }
    assert (E : Supplied.handleSubmit answer c f d = shown_for c p)
      by (unfold Supplied.handleSubmit; now rewrite Hok).
    rewrite E. split; [exact Hn|]. now apply Hshown.
Qed.

(** X13: what a submission keeps of the page.  In the deriving version
    the error region, the result list and the canvas after a submission do
    not depend on what the page showed before; the read-only modulus field
    is overwritten when validation succeeds, so that the whole page is then
    determined by the fields, and keeps its previous content when validation
    throws.  In the other version the error region, the list and the canvas
    do not depend on what was shown before unless the submission is
    cancelled. *)
Theorem handleSubmit_forgets (c : Canvas) (pg pg' : Derived.Page)
    (f : Form) (d d' : Display) :
  Derived.fields pg = Derived.fields pg' ->
  Derived.shown (Derived.step c pg Derived.Submit)
  = Derived.shown (Derived.step c pg' Derived.Submit)
  /\ (forall p,
        Derived.validateInputs (Derived.getInputValues (Derived.fields pg)) = Ok p ->
        Derived.step c pg Derived.Submit = Derived.step c pg' Derived.Submit
        /\ Derived.modulusField (Derived.step c pg Derived.Submit)
           = Some (p_modulus p))
  /\ (forall e,
        Derived.validateInputs (Derived.getInputValues (Derived.fields pg)) = Throw e ->
        Derived.modulusField (Derived.step c pg Derived.Submit)
        = Derived.modulusField pg)
  /\ forall answer,
       snd (Supplied.validateInputs answer (Supplied.getInputValues f))
       <> Throw Cancelled ->
       Supplied.handleSubmit answer c f d = Supplied.handleSubmit answer c f d'.
Proof.
  intros Hf.
  assert (Hshown : Derived.shown (Derived.step c pg Derived.Submit)
                   = Derived.shown (Derived.step c pg' Derived.Submit)).
  { cbn [Derived.step Derived.shown]. rewrite <- Hf.
    destruct (derived_handleSubmit_cases c (Derived.fields pg) (Derived.shown pg))
      as [(p & Hp & ->) | (e & He & ->)];
      destruct (derived_handleSubmit_cases c (Derived.fields pg) (Derived.shown pg'))
        as [(p' & Hp' & ->) | (e' & He' & ->)];
      congruence. }
  split; [exact Hshown|]. split; [|split].
  - intros p Hok.
    assert (Hm : forall m, Derived.modulusAfterSubmit (Derived.fields pg) m
                           = Some (p_modulus p)).
    { intros m. unfold Derived.modulusAfterSubmit. now rewrite Hok. }
    split.
    + cbn [Derived.step Derived.shown] in Hshown |- *.
      rewrite <- Hf, !Hm. f_equal. rewrite <- Hf in Hshown. exact Hshown.
    + cbn [Derived.step Derived.modulusField]. apply Hm.
  - intros e He. cbn [Derived.step Derived.modulusField].
    unfold Derived.modulusAfterSubmit. now rewrite He.
  - intros answer Hn.
    destruct (supplied_handleSubmit_cases answer c f d)
      as [(p & Hp & ->) | [(Hc & _) | (e & _ & He & ->)]];
      destruct (supplied_handleSubmit_cases answer c f d')
        as [(p' & Hp' & ->) | [(Hc' & _) | (e' & _ & He' & ->)]];
      congruence.
Qed.

Lemma handleSubmit_forgets_witness :
  Derived.modulusField
    (Derived.step (mkCanvas 600 400)
       (Derived.mkPage (mkForm "16" "5" "3" EmptyString "10") None
          (mkDisplay None [] []))
       Derived.Submit)
  = None.
Proof.
  refine (proj1 (proj2 (proj2 (handleSubmit_forgets (mkCanvas 600 400)
    (Derived.mkPage (mkForm "16" "5" "3" EmptyString "10") None (mkDisplay None [] []))
    (Derived.mkPage (mkForm "16" "5" "3" EmptyString "10") (Some (of_Z 16))
       (mkDisplay None [] []))
    (mkForm "1" "5" "3" "16" "10") (mkDisplay None [] []) (mkDisplay None [] [])
    _))) (SeedOutOfRange (Some (of_Z 16))) _).
  - reflexivity.
  - vm_compute. reflexivity.
Defined.

(** ** The two versions side by side *)

Lemma le_two_gt_one (x : Q) :
  le (of_Z 2) (Finite x) = true -> le (Finite x) (of_Z 1) = false.
Proof.
  unfold le, of_Z, Qcompare, inject_Z. cbn [Qnum Qden].
  destruct (2 * Zpos (Qden x) ?= Qnum x * 1) eqn:H1; try discriminate; intros _.
  - apply Z.compare_eq in H1.
    destruct (Qnum x * 1 ?= 1 * Zpos (Qden x)) eqn:H2; try reflexivity.
    + apply Z.compare_eq in H2. lia.
    + rewrite Z.compare_lt_iff in H2. lia.
  - rewrite Z.compare_lt_iff in H1.
    destruct (Qnum x * 1 ?= 1 * Zpos (Qden x)) eqn:H2; try reflexivity.
    + apply Z.compare_eq in H2. lia.
    + rewrite Z.compare_lt_iff in H2. lia.
Qed.

Lemma not_lt_one_gt_zero (x : Q) :
  lt (Finite x) (of_Z 1) = false -> le (Finite x) (of_Z 0) = false.
Proof.
  unfold lt, le, of_Z, Qcompare, inject_Z. cbn [Qnum Qden].
  destruct (Qnum x * 1 ?= 1 * Zpos (Qden x)) eqn:H1; try discriminate; intros _.
  - apply Z.compare_eq in H1.
    destruct (Qnum x * 1 ?= 0 * Zpos (Qden x)) eqn:H2; try reflexivity.
    + apply Z.compare_eq in H2. lia.
    + rewrite Z.compare_lt_iff in H2. lia.
  - rewrite Z.compare_gt_iff in H1.
    destruct (Qnum x * 1 ?= 0 * Zpos (Qden x)) eqn:H2; try reflexivity.
    + apply Z.compare_eq in H2. lia.
    + rewrite Z.compare_lt_iff in H2. lia.
Qed.

(** X14: the deriving version is the stricter one: whenever it validates a
    form, the other version, given the same fields with a modulus field that
    converts to the derived modulus (an integer) and a confirmed dialog,
    validates it too, and both submissions show the same results and plot. *)
Theorem versions_agree (c : Canvas) (f : Form) (d : Display) (p : Parsed) :
  Derived.validateInputs (Derived.getInputValues f) = Ok p ->
  Number (f_modulus f) = p_modulus p ->
  isInteger (p_modulus p) = true ->
  snd (Supplied.validateInputs true (Supplied.getInputValues f)) = Ok p
  /\ Supplied.handleSubmit true c f d = Derived.handleSubmit c f d.
Proof.
  intros Hok Hmod Hmi.
  assert (Hs : snd (Supplied.validateInputs true (Supplied.getInputValues f)) = Ok p).
  { rewrite derived_validate_trim in Hok. rewrite supplied_validate_trim.
    pose proof (nextPow2_ge_two (Number (f_count f))) as H2.
    assert (Hpm : p_modulus p = nextPow2 (Number (f_count f))).
    { destruct (derived_ok_count f p Hok) as (Hc & _ & _ & Hm). now rewrite Hm, Hc. }
    rewrite <- Hpm in H2.
    revert Hok. unfold Derived.validateInputs, Supplied.validateInputs.
    cbv zeta. simpl existsb. rewrite !invalid_isInteger.
    destruct (isInteger (Number (f_seed f))) eqn:Hi1; [|discriminate].
    destruct (isInteger (Number (f_multiplier f))) eqn:Hi2; [|discriminate].
    destruct (isInteger (Number (f_increment f))) eqn:Hi3; [|discriminate].
    destruct (isInteger (Number (f_count f))) eqn:Hi4; [|discriminate].
    cbn [negb orb].
    destruct (lt (Number (f_seed f)) (of_Z 0)) eqn:Hs0; [discriminate|].
    destruct (lt (Number (f_multiplier f)) (of_Z 0)); [discriminate|].
    destruct (lt (Number (f_increment f)) (of_Z 0)); [discriminate|].
    destruct (lt (Number (f_count f)) (of_Z 1)) eqn:Hc1; [discriminate|].
    cbn [orb].
    destruct (ge (Number (f_seed f)) (nextPow2 (Number (f_count f)))) eqn:Hge;
      [discriminate|].
    intros [= <-]. cbn [p_modulus] in Hmod, Hmi, H2.
    rewrite Hmod, Hmi. cbn [negb orb].
    destruct (isInteger_Finite _ Hmi) as (qm & Em).
    destruct (isInteger_Finite _ Hi4) as (qc & Ec).
    rewrite Em in H2 |- *. rewrite <- Em.
    rewrite Ec in Hc1.
    assert (E1 : le (nextPow2 (Number (f_count f))) (of_Z 1) = false).
    { rewrite Em. now apply le_two_gt_one. }
    assert (E2 : le (Number (f_count f)) (of_Z 0) = false).
    { rewrite Ec. now apply not_lt_one_gt_zero. }
    rewrite E1, Hge, E2. cbn [orb].
    destruct (gt (Number (f_count f)) (of_Z 100)); reflexivity. }
  split; [exact Hs|].
  unfold Supplied.handleSubmit, Derived.handleSubmit. now rewrite Hs, Hok.
Qed.

Lemma versions_agree_witness :
  Supplied.handleSubmit true (mkCanvas 600 400) (mkForm "1" "5" "3" "16" "10")
    (mkDisplay None [] [])
  = Derived.handleSubmit (mkCanvas 600 400) (mkForm "1" "5" "3" "16" "10")
      (mkDisplay None [] []).
Proof.
  refine (proj2 (versions_agree (mkCanvas 600 400) (mkForm "1" "5" "3" "16" "10")
    (mkDisplay None [] [])
    (mkParsed (of_Z 1) (of_Z 5) (of_Z 3) (of_Z 16) (of_Z 10)) _ _ _)).
  - vm_compute. reflexivity.
  - vm_compute. reflexivity.
  - vm_compute. reflexivity.
Defined.

(** ** Rounding between two integers *)

Lemma rne_ge (p d K : Z) : 0 < d -> K * d <= p -> K <= rne p d.
Proof.
  intros Hd Hp. unfold rne.
  assert (Hq : K <= p / d) by (apply Z.div_le_lower_bound; lia).
  destruct (2 * (p mod d) <? d); [lia|].
  destruct (d <? 2 * (p mod d)); [lia|].
  destruct (Z.even (p / d)); lia.
Qed.

Lemma ilog2_lt (p d j : Z) :
  0 < p -> 0 < d -> 0 <= j -> p < d * 2 ^ j -> ilog2 p d < j.
Proof.
  intros Hp Hd Hj Hlt. unfold ilog2.
  set (e0 := Z.log2 p - Z.log2 d).
  destruct (Z_lt_le_dec e0 j) as [Hlow|Hhigh].
  - destruct (_ <? _); lia.
  - pose proof (Z.log2_spec p Hp) as [Hp1 Hp2].
    pose proof (Z.log2_spec d Hd) as [Hd1 Hd2].
    pose proof (Z.log2_nonneg d) as Hdn.
    assert (He0 : e0 <= j).
    { assert (Hlog : Z.log2 p < Z.log2 d + 1 + j).
      { apply Z.log2_lt_pow2; [lia|].
        rewrite Z.pow_add_r by lia.
        assert (0 < 2 ^ j) by (apply Z.pow_pos_nonneg; lia).
        replace (Z.log2 d + 1) with (Z.succ (Z.log2 d)) by lia. nia. }
      unfold e0. lia. }
    assert (e0 = j) by lia.
    rewrite (Z.max_l 0 (- e0)), (Z.max_r 0 e0) by lia.
    replace (p * 2 ^ 0 <? d * 2 ^ e0) with true; [lia|].
    symmetry. apply Z.ltb_lt. rewrite Z.mul_1_r. congruence.
Qed.

Lemma round_pos_between (p d lo hi : Z) :
  0 < p -> 0 < d -> lo * d <= p <= hi * d -> 0 <= lo -> hi < 2 ^ 53 ->
  exists r, round_pos false p d = Finite r
            /\ (inject_Z lo <= r)%Q /\ (r <= inject_Z hi)%Q.
Proof.
  intros Hp Hd [Hlo Hhi] Hlo0 Hhi53.
  assert (He : ilog2 p d < 53) by (apply ilog2_lt; try lia; nia).
  unfold round_pos, ulp_exp.
  set (ue := Z.max (ilog2 p d - 52) (-1074)).
  assert (Hue : -1074 <= ue <= 0) by (unfold ue; lia).
  replace (971 <=? ue) with false by (symmetry; apply Z.leb_gt; lia).
  simpl andb. cbv iota.
  unfold significand.
  replace (ue <=? 0) with true by (symmetry; apply Z.leb_le; lia).
  set (k := - ue).
  assert (Hk : 0 <= k) by (unfold k; lia).
  assert (Hpow : 0 < 2 ^ k) by (apply Z.pow_pos_nonneg; lia).
  set (n := rne (p * 2 ^ k) d).
  assert (Hn1 : lo * 2 ^ k <= n) by (apply rne_ge; [lia|nia]).
  assert (Hn2 : n <= hi * 2 ^ k) by (apply rne_le; [lia|nia]).
  eexists. split; [reflexivity|].
  unfold scaled. destruct (0 <=? ue) eqn:H0.
  - apply Z.leb_le in H0. assert (Hk0 : k = 0) by (unfold k; lia).
    rewrite Hk0 in Hn1, Hn2. simpl in Hn1, Hn2.
    replace ue with 0 by lia. simpl (2 ^ 0).
    unfold Qle, inject_Z. simpl. lia.
  - rewrite Qred_correct. fold k. unfold Qle, inject_Z. simpl.
    rewrite Z2Pos.id by lia. lia.
Qed.

Lemma round_double_between (q : Q) (lo hi : Z) :
  (inject_Z lo <= q)%Q -> (q <= inject_Z hi)%Q -> 0 <= lo -> hi < 2 ^ 53 ->
  exists r, round_double q = Finite r
            /\ (inject_Z lo <= r)%Q /\ (r <= inject_Z hi)%Q.
Proof.
  intros Hlo Hhi Hlo0 Hhi53.
  destruct q as [qn qd]. unfold Qle, inject_Z in Hlo, Hhi. simpl in Hlo, Hhi.
  unfold round_double. simpl Qnum. simpl Qden.
  destruct qn as [|pn|pn].
  - exists 0%Q. split; [reflexivity|].
    unfold Qle, inject_Z. simpl. lia.
  - apply round_pos_between; lia.
  - lia.
Qed.

(** ** The discs and the axes *)

Lemma le_Finite (x y : Q) : (x <= y)%Q -> le (Finite x) (Finite y) = true.
Proof.
  intros H. unfold le, Qcompare. unfold Qle in H.
  destruct (Z.compare_spec (Qnum x * Zpos (Qden y)) (Qnum y * Zpos (Qden x)));
    [reflexivity|reflexivity|lia].
Qed.

Lemma scale_between (q : Q) (w lo : Z) :
  (0 <= q)%Q -> (q <= 1)%Q -> 0 <= w -> 0 <= lo -> lo + w < 2 ^ 53 ->
  exists r, add (of_Z lo) (mul (Finite q) (of_Z w)) = Finite r
            /\ (inject_Z lo <= r)%Q /\ (r <= inject_Z (lo + w))%Q.
Proof.
  intros Hq0 Hq1 Hw Hlo Hsum.
  assert (Hw0 : (0 <= inject_Z w)%Q).
  { unfold Qle, inject_Z. simpl. lia. }
  assert (H1 : (inject_Z 0 <= q * inject_Z w)%Q).
  { change (inject_Z 0) with 0%Q. now apply Qmult_le_0_compat. }
  assert (H2 : (q * inject_Z w <= inject_Z w)%Q).
  { rewrite <- (Qmult_1_l (inject_Z w)) at 2. now apply Qmult_le_compat_r. }
  destruct (round_double_between (q * inject_Z w) 0 w H1 H2 ltac:(lia) ltac:(lia))
    as (r1 & Hr1 & Hr1lo & Hr1hi).
  unfold mul, of_Z at 2. rewrite Hr1.
  unfold add, of_Z.
  apply round_double_between; try lia.
  - rewrite <- (Qplus_0_r (inject_Z lo)) at 1.
    apply Qplus_le_compat; [apply Qle_refl|exact Hr1lo].
  - rewrite inject_Z_plus.
    apply Qplus_le_compat; [apply Qle_refl|exact Hr1hi].
Qed.

Lemma ratio_unit (i D : Z) :
  0 <= i <= D -> 0 < D < 2 ^ 53 ->
  exists q, div (of_Z i) (of_Z D) = Finite q /\ (0 <= q)%Q /\ (q <= 1)%Q.
Proof.
  intros Hi HD. destruct (Z.eq_dec i D) as [->|Hne].
  - rewrite div_self by lia. exists (inject_Z 1).
    split; [reflexivity|]. split; [discriminate|apply Qle_refl].
  - destruct (div_below_one i D ltac:(lia) ltac:(lia)) as (q & Hq & H0 & H1).
    exists q. split; [exact Hq|]. split; [exact H0|now apply Qlt_le_weak].
Qed.

Lemma point_x_between (c : Canvas) (n i : Z) :
  60 <= width c < 2 ^ 32 -> 1 <= n < 2 ^ 32 -> 0 <= i < n ->
  between (of_Z 40) (point_x padding c n i) (of_Z (width c - 20)).
Proof.
  intros Hw Hn Hi. unfold point_x. cbn [left right padding].
  rewrite !sub_of_Z by lia. rewrite max_of_Z.
  destruct (ratio_unit i (Z.max (n - 1) 1) ltac:(lia) ltac:(lia))
    as (q & -> & Hq0 & Hq1).
  destruct (scale_between q (width c - 40 - 20) 40 Hq0 Hq1 ltac:(lia) ltac:(lia) ltac:(lia))
    as (r & -> & Hlo & Hhi).
  replace (40 + (width c - 40 - 20)) with (width c - 20) in Hhi by lia.
  split; apply le_Finite; assumption.
Qed.

Lemma point_y_between (c : Canvas) (nrm : number) :
  50 <= height c < 2 ^ 32 -> unit_interval nrm ->
  between (of_Z 20) (point_y padding c nrm) (of_Z (height c - 30)).
Proof.
  intros Hh (q & -> & Hq0 & Hq1). unfold point_y. cbn [top bottom padding].
  rewrite !sub_of_Z by lia.
  assert (Hs : exists t, sub (of_Z 1) (Finite q) = Finite t
                         /\ (0 <= t)%Q /\ (t <= 1)%Q).
  { unfold sub, neg, add, of_Z.
    apply (round_double_between _ 0 1); try lia.
    - rewrite Qred_correct. change (inject_Z 0) with 0%Q.
      change (inject_Z 1) with 1%Q. lra.
    - rewrite Qred_correct. change (inject_Z 1) with 1%Q. lra. }
  destruct Hs as (t & -> & Ht0 & Ht1).
  destruct (scale_between t (height c - 20 - 30) 20 Ht0 Ht1 ltac:(lia) ltac:(lia) ltac:(lia))
    as (r & -> & Hlo & Hhi).
  replace (20 + (height c - 20 - 30)) with (height c - 30) in Hhi by lia.
  split; apply le_Finite; assumption.
Qed.

Lemma plot_from_between (c : Canvas) (n : Z) (data : list Sample) :
  60 <= width c < 2 ^ 32 -> 50 <= height c < 2 ^ 32 -> 1 <= n < 2 ^ 32 ->
  Forall (fun s => unit_interval (normalized s)) data ->
  forall index, 0 <= index -> index + Z.of_nat (List.length data) <= n ->
    Forall (fun pt => between (of_Z 40) (px pt) (of_Z (width c - 20))
                      /\ between (of_Z 20) (py pt) (of_Z (height c - 30)))
           (plot_from padding c n index data).
Proof.
  intros Hw Hh Hn Hall.
  induction Hall as [|s rest Hs Hrest IH]; intros index H0 Hle; simpl.
  - constructor.
  - simpl List.length in Hle. constructor.
    + cbn [px py]. split.
      * apply point_x_between; lia.
      * now apply point_y_between.
    + apply IH; lia.
Qed.

(** X15: the discs stay within the axes.  On a canvas at least 60 wide and
    50 high, for samples whose normalized values lie in [[0, 1)], every disc
    drawn by [plot] has its centre between the two ends of the horizontal
    axis drawn by [drawAxes], and between the top end of the vertical axis
    and the level of the horizontal one. *)
Theorem plot_inside_axes (c : Canvas) (data : list Sample) :
  60 <= width c < 2 ^ 32 -> 50 <= height c < 2 ^ 32 ->
  Z.of_nat (List.length data) < 2 ^ 32 ->
  Forall (fun s => unit_interval (normalized s)) data ->
  forall xaxis yaxis pt,
    drawAxes c = [xaxis; yaxis] -> In pt (plot c data) ->
    between (px (fst xaxis)) (px pt) (px (snd xaxis))
    /\ between (py (snd yaxis)) (py pt) (py (fst yaxis)).
Proof.
  intros Hw Hh Hlen Hall xaxis yaxis pt Hax Hin.
  unfold drawAxes in Hax. rewrite !sub_of_Z in Hax by lia.
  injection Hax as <- <-. cbn [fst snd px py].
  destruct data as [|s rest]; [contradiction Hin|].
  unfold plot in Hin. rewrite plot_with_from in Hin.
  pose proof (plot_from_between c (Z.of_nat (List.length (s :: rest))) (s :: rest)
                Hw Hh ltac:(simpl List.length in *; lia) Hall 0 ltac:(lia) ltac:(lia))
    as HF.
  rewrite Forall_forall in HF. exact (HF pt Hin).
Qed.

Lemma plot_inside_axes_witness :
  between (of_Z 40)
          (px (mkPoint (of_Z 40) (of_Z 195)))
          (of_Z 580).
Proof.
  refine (proj1 (plot_inside_axes (mkCanvas 600 400)
    [mkSample (of_Z 8) (Finite (1 # 2))] _ _ _ _
    (mkPoint (of_Z 40) (of_Z 370), mkPoint (of_Z 580) (of_Z 370))
    (mkPoint (of_Z 40) (of_Z 370), mkPoint (of_Z 40) (of_Z 20))
    (mkPoint (of_Z 40) (of_Z 195)) _ _)).
  - simpl. lia.
  - simpl. lia.
  - simpl. lia.
  - constructor; [|constructor]. exists (1 # 2). split; [reflexivity|].
    split; [discriminate|reflexivity].
  - vm_compute. reflexivity.
  - left. vm_compute. reflexivity.
Defined.

(** X16: from the parameters to the canvas.  For valid parameters with
    [multiplier * (modulus - 1) <= 2^1022], [increment <= 2^1022] and
    [modulus <= 2^53], on a canvas at least 60 wide and 50 high, every disc
    that [plot] draws for the samples of [generateNormalized(n)] lies within
    the margins: [40 <= x <= width - 20] and [20 <= y <= height - 30]. *)
Theorem generated_discs_inside (cv : Canvas) (a c m s n : Z) :
  valid_params a c m s -> finite_range a c m -> 1 <= n < 2 ^ 32 ->
  60 <= width cv < 2 ^ 32 -> 50 <= height cv < 2 ^ 32 ->
  Forall (fun pt => between (of_Z 40) (px pt) (of_Z (width cv - 20))
                    /\ between (of_Z 20) (py pt) (of_Z (height cv - 30)))
         (plot cv (generateNormalized (lcg_of a c m s) n)).
Proof.
  intros (Ha & Hc & Hm & Hs) Hx Hn Hw Hh.
  set (data := generateNormalized (lcg_of a c m s) n).
  assert (Hunit : Forall (fun smp => unit_interval (normalized smp)) data).
  { unfold data, generateNormalized. rewrite generate_iterate.
    cbn [seed modulus lcg_of]. apply Forall_map.
    eapply Forall_impl;
      [|apply (iterate_in_range a c m s Ha Hc Hm Hx (Z.to_nat n) s Hs)].
    intros v (r & -> & Hr). cbn [normalized].
    apply div_below_one; [exact Hr|apply Hx]. }
  assert (Hlen : Z.of_nat (List.length data) = n).
  { unfold data, generateNormalized. rewrite length_map, generate_length. lia. }
  unfold plot. rewrite plot_with_from.
  apply plot_from_between; try assumption; lia.
Qed.

Lemma generated_discs_inside_witness :
  Forall (fun pt => between (of_Z 40) (px pt) (of_Z (600 - 20))
                    /\ between (of_Z 20) (py pt) (of_Z (400 - 30)))
         (plot (mkCanvas 600 400) (generateNormalized (lcg_of 5 3 16 1) 5)).
Proof.
  apply (generated_discs_inside (mkCanvas 600 400) 5 3 16 1 5).
  - unfold valid_params. lia.
  - unfold finite_range. lia.
  - lia.
  - simpl. lia.
  - simpl. lia.
Defined.

(** ** nextPow2 as a function of the count *)

Lemma nextPow2_value (n : Z) :
  1 <= n <= 2 ^ 47 ->
  nextPow2 (of_Z n) = of_Z (2 ^ Z.max 1 (Z.log2_up n)).
Proof.
  intros [Hn1 Hn2]. rewrite nextPow2_of_Z by lia.
  pose proof (Z.log2_spec n ltac:(lia)) as [Hlo Hhi].
  pose proof (Z.log2_nonneg n) as He.
  assert (Hup : Z.log2_up n <= 47) by (apply Z.log2_up_le_pow2; lia).
  assert (Hk : (if n =? 2 ^ Z.log2 n then Z.log2 n else Z.log2 n + 1) = Z.log2_up n).
  { destruct (n =? 2 ^ Z.log2 n) eqn:Heq.
    - apply Z.eqb_eq in Heq. rewrite Heq at 2. now rewrite Z.log2_up_pow2.
    - apply Z.eqb_neq in Heq.
      pose proof (Z.le_log2_log2_up n). pose proof (Z.le_log2_up_succ_log2 n).
      destruct (Z.eq_dec (Z.log2 n) (Z.log2_up n)) as [E|E]; [|lia].
      apply Z.log2_log2_up_exact in E; [|lia]. destruct E as (b & Hb).
      exfalso. apply Heq. rewrite Hb at 2.
      destruct (Z_lt_le_dec b 0) as [Hneg|Hpos].
      + rewrite Z.pow_neg_r in Hb by lia. lia.
      + now rewrite Z.log2_pow2. }
  rewrite Hk. pose proof (Z.log2_up_nonneg n) as Hnn.
  rewrite pow2_of_Z, max_of_Z by lia. f_equal.
  destruct (Z.eq_dec (Z.log2_up n) 0) as [->|Hne]; [reflexivity|].
  rewrite (Z.max_r 1) by lia.
  assert (2 ^ 1 <= 2 ^ Z.log2_up n) by (apply Z.pow_le_mono_r; lia).
  change (2 ^ 1) with 2 in *. lia.
Qed.

(** X17: on the integers [1 <= n <= 2^47], [nextPow2] is
    [2^max(1, ceil(log2 n))]; it is monotone, and idempotent: applied to
    its own result it returns that result. *)
Theorem nextPow2_monotone_idempotent (a b : Z) :
  1 <= a <= b -> b <= 2 ^ 47 ->
  nextPow2 (of_Z a) = of_Z (2 ^ Z.max 1 (Z.log2_up a))
  /\ le (nextPow2 (of_Z a)) (nextPow2 (of_Z b)) = true
  /\ nextPow2 (nextPow2 (of_Z a)) = nextPow2 (of_Z a).
Proof.
  intros Hab Hb.
  pose proof (Z.log2_up_nonneg a) as Hna.
  assert (Hua : Z.log2_up a <= 47) by (apply Z.log2_up_le_pow2; lia).
  assert (Hmono : Z.log2_up a <= Z.log2_up b) by (apply Z.log2_up_le_mono; lia).
  rewrite !nextPow2_value by lia.
  split; [reflexivity|]. split.
  - rewrite le_of_Z. apply Z.leb_le. apply Z.pow_le_mono_r; lia.
  - set (K := Z.max 1 (Z.log2_up a)).
    assert (HK : 1 <= K <= 47) by (unfold K; lia).
    assert (H1 : 2 ^ 1 <= 2 ^ K) by (apply Z.pow_le_mono_r; lia).
    assert (H2 : 2 ^ K <= 2 ^ 47) by (apply Z.pow_le_mono_r; lia).
    change (2 ^ 1) with 2 in H1.
    rewrite nextPow2_value by lia.
    rewrite Z.log2_up_pow2 by lia. now rewrite Z.max_r by lia.
Qed.

Lemma nextPow2_monotone_idempotent_witness :
  nextPow2 (nextPow2 (of_Z 10)) = nextPow2 (of_Z 10).
Proof.
  apply (proj2 (proj2 (nextPow2_monotone_idempotent 10 100 ltac:(lia) ltac:(lia)))).
Defined.

(** ** The seed-range error of the deriving version *)

(** X18: the deriving version reports a seed out of range only when the
    four fields are integers, none of seed, multiplier and increment is
    negative and the count is [>= 1]; the modulus named in the message is
    [nextPow2(count)] and the seed is [>=] it: the test [seed < 0] of that
    rule never decides.  No other message of the other version is ever
    produced here. *)
Theorem derived_seed_error (f : Form) (e : message) :
  Derived.validateInputs f = Throw e ->
  (e = NotIntegers \/ e = InvalidValues
   \/ e = SeedOutOfRange (Some (nextPow2 (Number (f_count f)))))
  /\ (forall m, e = SeedOutOfRange m ->
        not_integer (derived_fields f) = false
        /\ lt (Number (f_seed f)) (of_Z 0) = false
        /\ lt (Number (f_multiplier f)) (of_Z 0) = false
        /\ lt (Number (f_increment f)) (of_Z 0) = false
        /\ lt (Number (f_count f)) (of_Z 1) = false
        /\ le (nextPow2 (Number (f_count f))) (Number (f_seed f)) = true).
Proof.
  unfold Derived.validateInputs, not_integer, derived_fields.
  cbv zeta. simpl existsb. rewrite !invalid_isInteger.
  destruct (negb (isInteger (Number (f_seed f))) || _) eqn:Hint.
  - intros [= <-]. split; [auto|]. intros m Hm. discriminate Hm.
  - destruct (lt (Number (f_seed f)) (of_Z 0)) eqn:Hs0;
      [intros [= <-]; split; [auto|intros m Hm; discriminate Hm]|].
    destruct (lt (Number (f_multiplier f)) (of_Z 0)) eqn:Hm0;
      [intros [= <-]; split; [auto|intros m Hm; discriminate Hm]|].
    destruct (lt (Number (f_increment f)) (of_Z 0)) eqn:Hi0;
      [intros [= <-]; split; [auto|intros m Hm; discriminate Hm]|].
    destruct (lt (Number (f_count f)) (of_Z 1)) eqn:Hc1;
      [intros [= <-]; split; [auto|intros m Hm; discriminate Hm]|].
    cbn [orb].
    destruct (ge (Number (f_seed f)) (nextPow2 (Number (f_count f)))) eqn:Hge;
      [|discriminate].
    intros [= <-]. split; [auto|]. intros m _. repeat split. exact Hge.
Qed.

Lemma derived_seed_error_witness :
  le (nextPow2 (Number "10")) (Number "16") = true.
Proof.
  refine (proj2 (proj2 (proj2 (proj2 (proj2 (proj2
    (derived_seed_error (mkForm "16" "5" "3" EmptyString "10")
       (SeedOutOfRange (Some (of_Z 16))) _)
    (Some (of_Z 16)) eq_refl)))))).
  vm_compute. reflexivity.
Defined.

(** ** Rounding is monotone *)

Lemma P_pos (e : Z) : (0 < 2 ^ e)%Q.
Proof. apply Qpower_0_lt. reflexivity. Qed.

Lemma P_add (a b : Z) : (2 ^ (a + b) == 2 ^ a * 2 ^ b)%Q.
Proof. apply Qpower_plus. discriminate. Qed.

Lemma P_le (a b : Z) : a <= b -> (2 ^ a <= 2 ^ b)%Q.
Proof. intros H. apply Qpower_le_compat_l; [exact H|discriminate]. Qed.

Lemma P_lt_inv (a b : Z) : (2 ^ a < 2 ^ b)%Q -> a < b.
Proof. intros H. apply (Qpower_lt_compat_l_inv 2); [exact H|reflexivity]. Qed.

Lemma P_inject (e : Z) : 0 <= e -> (2 ^ e == inject_Z (2 ^ e))%Q.
Proof. intros H. symmetry. apply (Zpower_Qpower 2 e H). Qed.

Lemma inject_Z_lt (x y : Z) : x < y <-> (inject_Z x < inject_Z y)%Q.
Proof. unfold Qlt, inject_Z. simpl. lia. Qed.

Lemma inject_Z_le (x y : Z) : x <= y <-> (inject_Z x <= inject_Z y)%Q.
Proof. unfold Qle, inject_Z. simpl. lia. Qed.

(** The fraction [p / d] as a rational. *)
Lemma frac_lt (p d : Z) (x : Q) :
  0 < d -> ((inject_Z p < x * inject_Z d)%Q <-> (inject_Z p / inject_Z d < x)%Q).
Proof.
  intros Hd. assert (Hd' : (0 < inject_Z d)%Q) by (apply (inject_Z_lt 0 d); lia).
  split; intros H.
  - now apply Qlt_shift_div_r.
  - apply (Qmult_lt_r _ _ _ Hd') in H.
    unfold Qdiv in H. rewrite <- Qmult_assoc, (Qmult_comm (/ _)), Qmult_inv_r, Qmult_1_r in H;
      [exact H|]. intros E. rewrite E in Hd'. discriminate.
Qed.

Lemma frac_le (p d : Z) (x : Q) :
  0 < d -> ((x * inject_Z d <= inject_Z p)%Q <-> (x <= inject_Z p / inject_Z d)%Q).
Proof.
  intros Hd. assert (Hd' : (0 < inject_Z d)%Q) by (apply (inject_Z_lt 0 d); lia).
  split; intros H.
  - now apply Qle_shift_div_l.
  - apply (Qmult_le_r _ _ _ Hd') in H.
    unfold Qdiv in H. rewrite <- Qmult_assoc, (Qmult_comm (/ _)), Qmult_inv_r, Qmult_1_r in H;
      [exact H|]. intros E. rewrite E in Hd'. discriminate.
Qed.

(** The test of [ilog2] compares the fraction with a power of two. *)
Lemma ilog2_test (p d e : Z) :
  0 < d ->
  (p * 2 ^ Z.max 0 (- e) < d * 2 ^ Z.max 0 e
   <-> (inject_Z p / inject_Z d < 2 ^ e)%Q).
Proof.
  intros Hd. rewrite <- frac_lt by exact Hd.
  set (a := Z.max 0 (- e)). set (b := Z.max 0 e).
  assert (Ha : 0 <= a) by (unfold a; lia).
  assert (Hb : 0 <= b) by (unfold b; lia).
  assert (Hab : e + a = b) by (unfold a, b; lia).
  rewrite <- (Qmult_lt_r _ _ (2 ^ a)%Q) by apply P_pos.
  assert (E : (2 ^ e * inject_Z d * 2 ^ a == inject_Z (d * 2 ^ b))%Q).
  { rewrite inject_Z_mult, <- (P_inject b Hb), <- Hab, P_add. ring. }
  assert (E' : (inject_Z p * 2 ^ a == inject_Z (p * 2 ^ a))%Q).
  { rewrite inject_Z_mult, <- (P_inject a Ha). reflexivity. }
  rewrite E, E'. apply inject_Z_lt.
Qed.

Lemma ilog2_spec (p d : Z) :
  0 < p -> 0 < d ->
  (2 ^ ilog2 p d <= inject_Z p / inject_Z d)%Q
  /\ (inject_Z p / inject_Z d < 2 ^ (ilog2 p d + 1))%Q.
Proof.
  intros Hp Hd.
  pose proof (Z.log2_spec p Hp) as [Hp1 Hp2].
  pose proof (Z.log2_spec d Hd) as [Hd1 Hd2].
  pose proof (Z.log2_nonneg p) as Hpn. pose proof (Z.log2_nonneg d) as Hdn.
  set (lp := Z.log2 p) in *. set (ld := Z.log2 d) in *.
  assert (Hd' : (0 < inject_Z d)%Q) by (apply (inject_Z_lt 0 d); lia).
  assert (Ep1 : (2 ^ lp <= inject_Z p)%Q).
  { rewrite (P_inject lp Hpn). apply -> inject_Z_le. exact Hp1. }
  assert (Ep2 : (inject_Z p < 2 ^ (lp + 1))%Q).
  { rewrite (P_inject (lp + 1)) by lia. apply -> inject_Z_lt.
    replace (lp + 1) with (Z.succ lp) by lia. exact Hp2. }
  assert (Ed1 : (2 ^ ld <= inject_Z d)%Q).
  { rewrite (P_inject ld Hdn). apply -> inject_Z_le. exact Hd1. }
  assert (Ed2 : (inject_Z d < 2 ^ (ld + 1))%Q).
  { rewrite (P_inject (ld + 1)) by lia. apply -> inject_Z_lt.
    replace (ld + 1) with (Z.succ ld) by lia. exact Hd2. }
  assert (Hlow : (2 ^ (lp - ld - 1) <= inject_Z p / inject_Z d)%Q).
  { apply frac_le; [exact Hd|].
    apply Qle_trans with (2 ^ (lp - ld - 1) * 2 ^ (ld + 1))%Q.
    - apply Qmult_le_l; [apply P_pos|]. now apply Qlt_le_weak.
    - rewrite <- P_add. replace (lp - ld - 1 + (ld + 1)) with lp by lia. exact Ep1. }
  assert (Hupp : (inject_Z p / inject_Z d < 2 ^ (lp - ld + 1))%Q).
  { apply frac_lt; [exact Hd|].
    apply Qlt_le_trans with (2 ^ (lp + 1))%Q; [exact Ep2|].
    replace (lp + 1) with (lp - ld + 1 + ld) by lia. rewrite P_add.
    apply Qmult_le_l; [apply P_pos|exact Ed1]. }
  unfold ilog2. fold lp ld.
  destruct (p * 2 ^ Z.max 0 (- (lp - ld)) <? d * 2 ^ Z.max 0 (lp - ld)) eqn:T.
  - apply Z.ltb_lt in T. apply ilog2_test in T; [|exact Hd].
    split; [exact Hlow|]. now replace (lp - ld - 1 + 1) with (lp - ld) by lia.
  - apply Z.ltb_ge in T.
    split; [|exact Hupp].
    apply Qnot_lt_le. intros Hlt. apply ilog2_test in Hlt; [|exact Hd]. lia.
Qed.

Lemma rne_spec (p d : Z) :
  0 < d ->
  2 * rne p d * d - d <= 2 * p <= 2 * rne p d * d + d
  /\ (2 * p = 2 * rne p d * d + d \/ 2 * p = 2 * rne p d * d - d ->
      Z.even (rne p d) = true).
Proof.
  intros Hd. unfold rne.
  pose proof (Z.div_mod p d ltac:(lia)) as Hdm.
  pose proof (Z.mod_pos_bound p d Hd) as Hr.
  set (n0 := p / d) in *. set (r := p mod d) in *.
  destruct (2 * r <? d) eqn:H1.
  - apply Z.ltb_lt in H1. split; [nia|]. intros [H|H]; nia.
  - apply Z.ltb_ge in H1. destruct (d <? 2 * r) eqn:H2.
    + apply Z.ltb_lt in H2. split; [nia|]. intros [H|H]; nia.
    + apply Z.ltb_ge in H2. assert (Ht : 2 * r = d) by lia.
      destruct (Z.even n0) eqn:Hev.
      * split; [nia|]. intros _. exact Hev.
      * split; [nia|]. intros _.
        rewrite Z.even_add, Hev. reflexivity.
Qed.

Lemma rne_mono (p1 d1 p2 d2 : Z) :
  0 < d1 -> 0 < d2 -> p1 * d2 <= p2 * d1 -> rne p1 d1 <= rne p2 d2.
Proof.
  intros Hd1 Hd2 Hle.
  destruct (rne_spec p1 d1 Hd1) as [[Hl1 Hu1] Ht1].
  destruct (rne_spec p2 d2 Hd2) as [[Hl2 Hu2] Ht2].
  set (n1 := rne p1 d1) in *. set (n2 := rne p2 d2) in *.
  destruct (Z_le_gt_dec n1 n2) as [Hok|Hgt]; [exact Hok|exfalso].
  assert (Hn : n1 = n2 + 1).
  { assert (H : (2 * n1 - 1) * (d1 * d2) <= (2 * n2 + 1) * (d1 * d2)) by nia.
    assert (0 < d1 * d2) by nia. nia. }
  assert (E1 : 2 * p1 = 2 * n1 * d1 - d1).
  { assert (H : 2 * p1 * d2 <= (2 * n1 - 1) * d1 * d2) by nia. nia. }
  assert (E2 : 2 * p2 = 2 * n2 * d2 + d2).
  { assert (H : (2 * n2 + 1) * d2 * d1 <= 2 * p2 * d1) by nia. nia. }
  pose proof (Ht1 (or_intror E1)) as Hev1.
  pose proof (Ht2 (or_introl E2)) as Hev2.
  rewrite Hn, Z.even_add, Hev2 in Hev1. discriminate.
Qed.

(** The fraction whose rounding is the significand. *)
Lemma significand_frac (p d ue : Z) :
  0 < d ->
  exists p' d', 0 < d' /\ significand p d ue = rne p' d'
    /\ (inject_Z p' / inject_Z d' == inject_Z p / inject_Z d * 2 ^ (- ue))%Q.
Proof.
  intros Hd.
  assert (Hd' : ~ (inject_Z d == 0)%Q).
  { intros E. assert (H : (0 < inject_Z d)%Q) by (apply -> (inject_Z_lt 0 d); lia).
    rewrite E in H. discriminate. }
  unfold significand. destruct (ue <=? 0) eqn:Hu.
  - apply Z.leb_le in Hu. exists (p * 2 ^ (- ue)), d.
    split; [exact Hd|]. split; [reflexivity|].
    rewrite inject_Z_mult, <- (P_inject (- ue)) by lia. field. exact Hd'.
  - apply Z.leb_gt in Hu. exists p, (d * 2 ^ ue).
    assert (Hp : 0 < 2 ^ ue) by (apply Z.pow_pos_nonneg; lia).
    split; [nia|]. split; [reflexivity|].
    rewrite inject_Z_mult, <- (P_inject ue) by lia.
    rewrite Qpower_opp. field. split; [|exact Hd'].
    intros E. pose proof (P_pos ue) as H. rewrite E in H. discriminate.
Qed.

Lemma frac_le_Z (p d K : Z) :
  0 < d -> (inject_Z p / inject_Z d <= inject_Z K)%Q -> p <= K * d.
Proof.
  intros Hd H.
  assert (Hd' : (0 < inject_Z d)%Q) by (apply -> (inject_Z_lt 0 d); lia).
  destruct (Z_le_gt_dec p (K * d)) as [Hok|Hgt]; [exact Hok|exfalso].
  assert (Hlt : (inject_Z K * inject_Z d < inject_Z p)%Q).
  { rewrite <- inject_Z_mult. apply -> inject_Z_lt. lia. }
  apply Qlt_shift_div_l in Hlt; [|exact Hd'].
  apply (Qlt_irrefl (inject_Z K)). eapply Qlt_le_trans; eassumption.
Qed.

Lemma frac_ge_Z (p d K : Z) :
  0 < d -> (inject_Z K <= inject_Z p / inject_Z d)%Q -> K * d <= p.
Proof.
  intros Hd H.
  apply frac_le in H; [|exact Hd].
  rewrite <- inject_Z_mult in H. now apply inject_Z_le.
Qed.

Lemma frac_le_cross (p1 d1 p2 d2 : Z) :
  0 < d1 -> 0 < d2 ->
  (inject_Z p1 / inject_Z d1 <= inject_Z p2 / inject_Z d2)%Q ->
  p1 * d2 <= p2 * d1.
Proof.
  intros Hd1 Hd2 H.
  assert (Hd1' : (0 < inject_Z d1)%Q) by (apply -> (inject_Z_lt 0 d1); lia).
  assert (Hd2' : (0 < inject_Z d2)%Q) by (apply -> (inject_Z_lt 0 d2); lia).
  apply inject_Z_le. rewrite !inject_Z_mult.
  apply (Qmult_le_r _ _ _ Hd1') in H. apply (Qmult_le_r _ _ _ Hd2') in H.
  assert (E1 : (inject_Z p1 / inject_Z d1 * inject_Z d1 * inject_Z d2
                == inject_Z p1 * inject_Z d2)%Q).
  { field. intros E. rewrite E in Hd1'. discriminate. }
  assert (E2 : (inject_Z p2 / inject_Z d2 * inject_Z d1 * inject_Z d2
                == inject_Z p2 * inject_Z d1)%Q).
  { field. intros E. rewrite E in Hd2'. discriminate. }
  rewrite E1, E2 in H. exact H.
Qed.

Lemma scaled_value (n ue : Z) : (scaled n ue == inject_Z n * 2 ^ ue)%Q.
Proof.
  unfold scaled. destruct (0 <=? ue) eqn:Hu.
  - apply Z.leb_le in Hu. now rewrite inject_Z_mult, <- (P_inject ue Hu).
  - apply Z.leb_gt in Hu. rewrite Qred_correct, Qmake_Qdiv.
    assert (Hp : 0 < 2 ^ (- ue)) by (apply Z.pow_pos_nonneg; lia).
    rewrite Z2Pos.id by exact Hp.
    rewrite <- (P_inject (- ue)) by lia.
    assert (E : (2 ^ ue == / 2 ^ (- ue))%Q).
    { rewrite <- Qpower_opp. now rewrite Z.opp_involutive. }
    rewrite E. reflexivity.
Qed.

Section Significand.

Variables p d : Z.
Hypothesis Hp : 0 < p.
Hypothesis Hd : 0 < d.

Let q : Q := (inject_Z p / inject_Z d)%Q.
Let e := ilog2 p d.
Let ue := ulp_exp p d.
Let n := significand p d ue.

Lemma ulp_exp_bounds : e - 52 <= ue /\ -1074 <= ue /\ (ue = e - 52 \/ ue = -1074).
Proof. unfold ue, ulp_exp, e. lia. Qed.

Lemma significand_le (K : Z) : (q * 2 ^ (- ue) <= inject_Z K)%Q -> n <= K.
Proof.
  intros H. unfold n.
  destruct (significand_frac p d ue Hd) as (p' & d' & Hd' & -> & E).
  apply rne_le; [exact Hd'|]. apply frac_le_Z; [exact Hd'|]. now rewrite E.
Qed.

Lemma significand_ge (K : Z) : (inject_Z K <= q * 2 ^ (- ue))%Q -> K <= n.
Proof.
  intros H. unfold n.
  destruct (significand_frac p d ue Hd) as (p' & d' & Hd' & -> & E).
  apply rne_ge; [exact Hd'|]. apply frac_ge_Z; [exact Hd'|]. now rewrite E.
Qed.

Lemma significand_upper : n <= 2 ^ 53.
Proof.
  apply significand_le.
  destruct (ilog2_spec p d Hp Hd) as [_ Hup]. fold q e in Hup.
  destruct ulp_exp_bounds as (Hb & _ & _).
  rewrite <- (P_inject 53) by lia.
  apply Qle_trans with (2 ^ (e + 1) * 2 ^ (- ue))%Q.
  - apply Qmult_le_r; [apply P_pos|]. now apply Qlt_le_weak.
  - rewrite <- P_add. apply P_le. lia.
Qed.

Lemma significand_lower : ue = e - 52 -> 2 ^ 52 <= n.
Proof.
  intros Hue. apply significand_ge.
  destruct (ilog2_spec p d Hp Hd) as [Hlo _]. fold q e in Hlo.
  rewrite <- (P_inject 52) by lia.
  apply Qle_trans with (2 ^ e * 2 ^ (- ue))%Q.
  - rewrite <- P_add. apply P_le. lia.
  - apply Qmult_le_r; [apply P_pos|exact Hlo].
Qed.

Lemma significand_nonneg : 0 <= n.
Proof.
  apply significand_ge. change (inject_Z 0) with 0%Q.
  apply Qmult_le_0_compat; [|apply Qlt_le_weak, P_pos].
  destruct (ilog2_spec p d Hp Hd) as [Hlo _]. fold q in Hlo.
  eapply Qle_trans; [apply Qlt_le_weak, (P_pos (ilog2 p d))|exact Hlo].
Qed.

End Significand.

Lemma round_pos_mono (p1 d1 p2 d2 : Z) :
  0 < p1 -> 0 < d1 -> 0 < p2 -> 0 < d2 ->
  (inject_Z p1 / inject_Z d1 <= inject_Z p2 / inject_Z d2)%Q ->
  le (round_pos false p1 d1) (round_pos false p2 d2) = true.
Proof.
  intros Hp1 Hd1 Hp2 Hd2 Hq.
  destruct (ilog2_spec p1 d1 Hp1 Hd1) as [Hlo1 _].
  destruct (ilog2_spec p2 d2 Hp2 Hd2) as [_ Hup2].
  assert (He : ilog2 p1 d1 <= ilog2 p2 d2).
  { assert (H : ilog2 p1 d1 < ilog2 p2 d2 + 1); [|lia].
    apply P_lt_inv. eapply Qle_lt_trans; [exact Hlo1|].
    eapply Qle_lt_trans; [exact Hq|exact Hup2]. }
  pose proof (significand_upper p1 d1 Hp1 Hd1) as Hn1u.
  pose proof (significand_nonneg p1 d1 Hp1 Hd1) as Hn1p.
  pose proof (significand_nonneg p2 d2 Hp2 Hd2) as Hn2p.
  pose proof (significand_lower p2 d2 Hp2 Hd2) as Hn2l.
  unfold round_pos.
  set (ue1 := ulp_exp p1 d1) in *. set (ue2 := ulp_exp p2 d2) in *.
  set (n1 := significand p1 d1 ue1) in *. set (n2 := significand p2 d2 ue2) in *.
  assert (Hue : ue1 <= ue2 /\ -1074 <= ue1
                /\ (ue2 = ilog2 p2 d2 - 52 \/ ue2 = -1074)).
  { unfold ue1, ue2, ulp_exp. lia. }
  destruct Hue as (Hue & Hue1 & Hue2).
  assert (Hcase : (ue1 = ue2 /\ n1 <= n2) \/ (ue1 < ue2 /\ 2 ^ 52 <= n2)).
  { destruct (Z.eq_dec ue1 ue2) as [E|E].
    - left. split; [exact E|]. unfold n1, n2. rewrite <- E.
      destruct (significand_frac p1 d1 ue1 Hd1) as (a1 & b1 & Hb1 & -> & E1).
      destruct (significand_frac p2 d2 ue1 Hd2) as (a2 & b2 & Hb2 & -> & E2).
      apply rne_mono; [exact Hb1|exact Hb2|].
      apply frac_le_cross; [exact Hb1|exact Hb2|].
      rewrite E1, E2. apply Qmult_le_r; [apply P_pos|exact Hq].
    - right. split; [lia|]. apply Hn2l. lia. }
  assert (HV : (inject_Z n1 * 2 ^ ue1 <= inject_Z n2 * 2 ^ ue2)%Q).
  { destruct Hcase as [(E & Hn) | (Hlt & Hn)].
    - rewrite E. apply Qmult_le_r; [apply P_pos|]. now apply -> inject_Z_le.
    - apply Qle_trans with (inject_Z (2 ^ 53) * 2 ^ ue1)%Q.
      + apply Qmult_le_r; [apply P_pos|]. now apply -> inject_Z_le.
      + apply Qle_trans with (inject_Z (2 ^ 52) * 2 ^ ue2)%Q.
        * rewrite <- (P_inject 53), <- (P_inject 52), <- !P_add by lia.
          apply P_le. lia.
        * apply Qmult_le_r; [apply P_pos|]. now apply -> inject_Z_le. }
  assert (HO : (971 <=? ue1) && (2 ^ (1024 - ue1) <=? n1) = true ->
               (971 <=? ue2) && (2 ^ (1024 - ue2) <=? n2) = true).
  { intros H. apply andb_true_iff in H as [H1 H2].
    apply Z.leb_le in H1, H2. apply andb_true_iff.
    split; [apply Z.leb_le; lia|]. apply Z.leb_le.
    destruct Hcase as [(E & Hn) | (Hlt & Hn)].
    - rewrite <- E. lia.
    - assert (2 ^ (1024 - ue2) <= 2 ^ 52) by (apply Z.pow_le_mono_r; lia). lia. }
  destruct ((971 <=? ue2) && (2 ^ (1024 - ue2) <=? n2)) eqn:O2.
  - destruct ((971 <=? ue1) && (2 ^ (1024 - ue1) <=? n1)); reflexivity.
  - destruct ((971 <=? ue1) && (2 ^ (1024 - ue1) <=? n1)) eqn:O1.
    + specialize (HO eq_refl). discriminate.
    + apply le_Finite. now rewrite !scaled_value.
Qed.

Lemma round_pos_nonneg (p d : Z) :
  0 < p -> 0 < d -> le (of_Z 0) (round_pos false p d) = true.
Proof.
  intros Hp Hd. unfold round_pos.
  destruct (_ && _); [reflexivity|].
  apply le_Finite. rewrite scaled_value. change (inject_Z 0) with 0%Q.
  apply Qmult_le_0_compat; [|apply Qlt_le_weak, P_pos].
  apply -> (inject_Z_le 0). now apply significand_nonneg.
Qed.

(** Rounding keeps the order of non-negative exact results. *)
Lemma round_double_mono (x y : Q) :
  (0 <= x)%Q -> (x <= y)%Q -> le (round_double x) (round_double y) = true.
Proof.
  intros Hx Hxy.
  assert (Hy : (0 <= y)%Q) by exact (Qle_trans _ _ _ Hx Hxy).
  destruct x as [xn xd], y as [yn yd].
  unfold round_double. cbn [Qnum Qden].
  assert (Hxn : 0 <= xn) by (unfold Qle in Hx; simpl in Hx; lia).
  assert (Hyn : 0 <= yn) by (unfold Qle in Hy; simpl in Hy; lia).
  destruct xn as [|px|px]; [|destruct yn as [|py|py]|]; try lia.
  - destruct yn as [|py|py]; try lia; [reflexivity|].
    apply (round_pos_nonneg (Zpos py) (Zpos yd)); lia.
  - unfold Qle in Hxy. simpl in Hxy. lia.
  - apply round_pos_mono; try lia.
    rewrite <- !Qmake_Qdiv. exact Hxy.
Qed.

(** ** Order on the canvas *)

Lemma le_Finite_inv (x y : Q) : le (Finite x) (Finite y) = true -> (x <= y)%Q.
Proof.
  unfold le, Qcompare, Qle.
  destruct (Z.compare_spec (Qnum x * Zpos (Qden y)) (Qnum y * Zpos (Qden x)));
    [lia|lia|discriminate].
Qed.

Lemma affine_mono (qi qj : Q) (w lo : Z) :
  (0 <= qi)%Q -> (qi <= qj)%Q -> (qj <= 1)%Q ->
  0 <= w -> 0 <= lo -> lo + w < 2 ^ 53 ->
  le (add (of_Z lo) (mul (Finite qi) (of_Z w)))
     (add (of_Z lo) (mul (Finite qj) (of_Z w))) = true.
Proof.
  intros Hi Hij Hj Hw Hlo Hsum.
  assert (Hw0 : (0 <= inject_Z w)%Q) by (apply -> (inject_Z_le 0 w); exact Hw).
  assert (Hj0 : (0 <= qj)%Q) by exact (Qle_trans _ _ _ Hi Hij).
  assert (Hi1 : (qi <= 1)%Q) by exact (Qle_trans _ _ _ Hij Hj).
  assert (Hbound : forall q, (0 <= q)%Q -> (q <= 1)%Q ->
            (inject_Z 0 <= q * inject_Z w)%Q /\ (q * inject_Z w <= inject_Z w)%Q).
  { intros q H0 H1. split.
    - change (inject_Z 0) with 0%Q. now apply Qmult_le_0_compat.
    - rewrite <- (Qmult_1_l (inject_Z w)) at 2. now apply Qmult_le_compat_r. }
  destruct (Hbound qi Hi Hi1) as [Ha1 Ha2]. destruct (Hbound qj Hj0 Hj) as [Hb1 Hb2].
  destruct (round_double_between _ 0 w Ha1 Ha2 ltac:(lia) ltac:(lia))
    as (ri & Eri & Hri0 & _).
  destruct (round_double_between _ 0 w Hb1 Hb2 ltac:(lia) ltac:(lia))
    as (rj & Erj & _ & _).
  assert (Hr : (ri <= rj)%Q).
  { apply le_Finite_inv. rewrite <- Eri, <- Erj.
    apply round_double_mono; [exact Ha1|]. now apply Qmult_le_compat_r. }
  unfold mul, of_Z at 2 4. rewrite Eri, Erj. unfold add, of_Z.
  assert (Hlo0 : (0 <= inject_Z lo)%Q) by (apply -> (inject_Z_le 0 lo); exact Hlo).
  change (inject_Z 0) with 0%Q in Hri0.
  apply round_double_mono.
  - rewrite <- (Qplus_0_r 0). now apply Qplus_le_compat.
  - apply Qplus_le_compat; [apply Qle_refl|exact Hr].
Qed.

Lemma ratio_mono (i j D : Z) :
  0 <= i <= j -> j <= D -> 0 < D < 2 ^ 53 ->
  exists qi qj, div (of_Z i) (of_Z D) = Finite qi
    /\ div (of_Z j) (of_Z D) = Finite qj
    /\ (0 <= qi)%Q /\ (qi <= qj)%Q /\ (qj <= 1)%Q.
Proof.
  intros Hij HjD HD.
  destruct (ratio_unit i D ltac:(lia) HD) as (qi & Ei & Hi0 & _).
  destruct (ratio_unit j D ltac:(lia) HD) as (qj & Ej & _ & Hj1).
  exists qi, qj. repeat split; try assumption.
  apply le_Finite_inv. rewrite <- Ei, <- Ej.
  unfold div, of_Z, is_zero. cbn [Qnum inject_Z].
  replace (D =? 0) with false by (symmetry; apply Z.eqb_neq; lia).
  assert (HDq : (0 < inject_Z D)%Q) by (apply -> (inject_Z_lt 0 D); lia).
  apply round_double_mono.
  - apply Qle_shift_div_l; [exact HDq|]. rewrite Qmult_0_l.
    apply -> (inject_Z_le 0 i). lia.
  - apply Qmult_le_compat_r; [apply -> inject_Z_le; lia|].
    apply Qlt_le_weak, Qinv_lt_0_compat, HDq.
Qed.

Lemma point_x_mono (c : Canvas) (n i j : Z) :
  60 <= width c < 2 ^ 32 -> 1 <= n < 2 ^ 32 -> 0 <= i <= j -> j < n ->
  le (point_x padding c n i) (point_x padding c n j) = true.
Proof.
  intros Hw Hn Hij Hj. unfold point_x. cbn [left right padding].
  rewrite !sub_of_Z by lia. rewrite max_of_Z.
  destruct (ratio_mono i j (Z.max (n - 1) 1) Hij ltac:(lia) ltac:(lia))
    as (qi & qj & -> & -> & H0 & H1 & H2).
  apply affine_mono; try assumption; lia.
Qed.

(** X19: [plot] keeps the order of the samples from left to right: on a
    canvas at least 60 wide, a disc drawn for a later sample is never to
    the left of a disc drawn for an earlier one. *)
Theorem plot_left_to_right (c : Canvas) (data : list Sample) (i j : nat)
    (si sj : Sample) (pi pj : Point) :
  60 <= width c < 2 ^ 32 -> Z.of_nat (List.length data) < 2 ^ 32 ->
  (i <= j)%nat ->
  nth_error data i = Some si -> nth_error data j = Some sj ->
  nth_error (plot c data) i = Some pi -> nth_error (plot c data) j = Some pj ->
  le (px pi) (px pj) = true.
Proof.
  intros Hw Hlen Hij Hsi Hsj Hpi Hpj.
  unfold plot in Hpi, Hpj. rewrite plot_with_from in Hpi, Hpj.
  rewrite (plot_from_nth _ _ _ _ 0 i si Hsi) in Hpi.
  rewrite (plot_from_nth _ _ _ _ 0 j sj Hsj) in Hpj.
  injection Hpi as <-. injection Hpj as <-. cbn [px].
  assert (Hj : (j < List.length data)%nat).
  { apply nth_error_Some. rewrite Hsj. discriminate. }
  apply point_x_mono; lia.
Qed.

Lemma plot_left_to_right_witness :
  le (of_Z 40) (of_Z 580) = true.
Proof.
  refine (plot_left_to_right (mkCanvas 600 400)
    [mkSample (of_Z 8) (Finite (1 # 2)); mkSample (of_Z 11) (Finite (11 # 16))]
    0 1 (mkSample (of_Z 8) (Finite (1 # 2))) (mkSample (of_Z 11) (Finite (11 # 16)))
    (mkPoint (of_Z 40) (of_Z 195)) (mkPoint (of_Z 580) (Finite (1035 # 8)))
    _ _ _ _ _ _ _).
  - simpl. lia.
  - simpl. lia.
  - lia.
  - reflexivity.
  - reflexivity.
  - vm_compute. reflexivity.
  - vm_compute. reflexivity.
Defined.

Lemma one_minus_mono (q1 q2 : Q) :
  (0 <= q1)%Q -> (q1 <= q2)%Q -> (q2 < 1)%Q ->
  exists t1 t2, sub (of_Z 1) (Finite q1) = Finite t1
    /\ sub (of_Z 1) (Finite q2) = Finite t2
    /\ (0 <= t2)%Q /\ (t2 <= t1)%Q /\ (t1 <= 1)%Q.
Proof.
  intros H0 H12 H2.
  assert (Hb : forall q, (0 <= q)%Q -> (q < 1)%Q ->
            (inject_Z 0 <= inject_Z 1 + Qred (- q))%Q
            /\ (inject_Z 1 + Qred (- q) <= inject_Z 1)%Q).
  { intros q Ha Hb. rewrite Qred_correct.
    change (inject_Z 0) with 0%Q. change (inject_Z 1) with 1%Q. split; lra. }
  assert (H1 : (q1 < 1)%Q) by exact (Qle_lt_trans _ _ _ H12 H2).
  assert (H02 : (0 <= q2)%Q) by exact (Qle_trans _ _ _ H0 H12).
  destruct (Hb q1 H0 H1) as [Ha1 Ha2]. destruct (Hb q2 H02 H2) as [Hb1 Hb2].
  destruct (round_double_between _ 0 1 Ha1 Ha2 ltac:(lia) ltac:(lia))
    as (t1 & E1 & _ & Ht1).
  destruct (round_double_between _ 0 1 Hb1 Hb2 ltac:(lia) ltac:(lia))
    as (t2 & E2 & Ht2 & _).
  exists t1, t2. unfold sub, neg, add, of_Z.
  split; [exact E1|]. split; [exact E2|].
  split; [exact Ht2|]. split; [|exact Ht1].
  apply le_Finite_inv. rewrite <- E1, <- E2.
  apply round_double_mono; [exact Hb1|].
  rewrite !Qred_correct. lra.
Qed.

(** X20: larger values plot higher: on a canvas at least 50 high, for two
    normalized values of [[0, 1)], the larger one never gets the larger
    [y], that is, it is never drawn below the smaller one. *)
Theorem plot_larger_is_higher (c : Canvas) (q1 q2 : Q) :
  50 <= height c < 2 ^ 32 ->
  (0 <= q1)%Q -> (q1 <= q2)%Q -> (q2 < 1)%Q ->
  le (point_y padding c (Finite q2)) (point_y padding c (Finite q1)) = true.
Proof.
  intros Hh H0 H12 H2. unfold point_y. cbn [top bottom padding].
  rewrite !sub_of_Z by lia.
  destruct (one_minus_mono q1 q2 H0 H12 H2) as (t1 & t2 & -> & -> & Ha & Hb & Hc).
  apply affine_mono; try assumption; lia.
Qed.

Lemma plot_larger_is_higher_witness :
  le (point_y padding (mkCanvas 600 400) (Finite (3 # 4)))
     (point_y padding (mkCanvas 600 400) (Finite (1 # 2))) = true.
Proof.
  apply (plot_larger_is_higher (mkCanvas 600 400) (1 # 2) (3 # 4)).
  - simpl. lia.
  - discriminate.
  - discriminate.
  - reflexivity.
Defined.
